(** * gpm: command pipeline, release, watch runner and package.json ordering

    A shallow embedding of [src/core/managers/package.ts] and
    [src/core/managers/devtools.ts], followed by the properties of the
    command pipeline, of [PackageManager.release], of [DevTools.watch] and
    its debounced re-run handler, and of [sortPackageJSON]. *)

From Stdlib Require Import Ascii String List ZArith Bool Arith Lia Permutation.
Import ListNotations.

#[local] Open Scope string_scope.
#[local] Open Scope list_scope.

(* ================================================================== *)
(** * Part I: the model *)
(* ================================================================== *)

(** ** [pipeline(commands)]  (package.ts, lines 267-292) *)

Module Pipeline.

(** Chunks of output and error values are opaque to the pipeline (they are
    typed [any] in the source); they are kept as strings. *)
Definition Payload := string.

(** What a spawned child tells its listeners before it exits. *)
Inductive ChildEvent :=
| ChData (p : Payload)      (* child.on('data', ...)  fires *)
| ChError (p : Payload).    (* child.on('error', ...) fires *)

(** The behaviour of one call of [api.$.spawn(command)], an external
    primitive.  Either the call throws, or it hands back a child that
    fires a finite run of events and then, when [exit] is [Some code],
    its [exit] event; [None] is a child that never exits. *)
Inductive SpawnResult :=
| SpawnThrows (e : Payload)
| Spawned (output : list ChildEvent) (exit : option Z).

(** Events of the emitter that [pipeline] returns. *)
Inductive Emit :=
| EmitData (p : Payload)
| EmitExit
| EmitError (e : Payload).

(** What [run()] does, in the order in which it does it. *)
Inductive Action :=
| ASpawn (command : string)                (* api.$.spawn(command) is called *)
| AAwait                                   (* run() suspends on `await new Promise` *)
| AEmit (ev : Emit)                        (* emitter.emit(...) *)
| AResolve (command : string) (code : Z).  (* the exit listener calls resolve() *)

(** [Settled]: [run()] ran to its end.  [Suspended]: it is parked for ever
    on the promise of a child that never exits. *)
Inductive Status := Settled | Suspended.

(** Lines 275-276: both listeners of the child emit ['data']. *)
Definition forward (ev : ChildEvent) : Action :=
  match ev with
  | ChData p => AEmit (EmitData p)
  | ChError p => AEmit (EmitData p)
  end.

Section Run.
(** The spawn primitive is a state-passing oracle: what a command does
    may depend on everything that ran before it. *)
Variable World : Type.
Variable spawn : string -> World -> SpawnResult * World.

(** The body of [run()]: the [for] loop inside [try], the final
    [emit('exit')], and the [catch] that emits ['error'].  A spawn that
    throws inside the promise executor rejects the promise, so the
    [await] still suspends once before control reaches [catch]. *)
Fixpoint run (commands : list string) (w : World) : list Action * Status :=
  match commands with
  | [] => ([AEmit EmitExit], Settled)
  | command :: rest =>
      match spawn command w with
      | (SpawnThrows e, _) =>
          ([ASpawn command; AAwait; AEmit (EmitError e)], Settled)
      | (Spawned output None, _) =>
          (ASpawn command :: AAwait :: map forward output, Suspended)
      | (Spawned output (Some code), w') =>
          let (tr, st) := run rest w' in
          (ASpawn command :: AAwait :: map forward output
             ++ AResolve command code :: tr, st)
      end
  end.

(** The world the commands of a list leave behind, one after the other. *)
Fixpoint world_after (commands : list string) (w : World) : World :=
  match commands with
  | [] => w
  | command :: rest => world_after rest (snd (spawn command w))
  end.

(** Every command of the list is spawned without a throw and exits
    (with whatever code). *)
Fixpoint all_exit (commands : list string) (w : World) : bool :=
  match commands with
  | [] => true
  | command :: rest =>
      match spawn command w with
      | (Spawned _ (Some _), w') => all_exit rest w'
      | _ => false
      end
  end.

(** What one command that exits contributes to the trace. *)
Definition segment (command : string) (w : World) : list Action :=
  match fst (spawn command w) with
  | Spawned output (Some code) =>
      ASpawn command :: AAwait :: map forward output ++ [AResolve command code]
  | _ => []
  end.

Fixpoint segments (commands : list string) (w : World) : list Action :=
  match commands with
  | [] => []
  | command :: rest =>
      segment command w ++ segments rest (snd (spawn command w))
  end.
End Run.

Arguments run {World} spawn commands w.
Arguments world_after {World} spawn commands w.
Arguments all_exit {World} spawn commands w.
Arguments segment {World} spawn command w.
Arguments segments {World} spawn commands w.

(** A child's events reach the emitter as ['data'], whichever of its two
    streams they came from. *)
Definition payload (ev : ChildEvent) : Payload :=
  match ev with ChData p => p | ChError p => p end.

(** Projections of a trace. *)
Fixpoint spawned (tr : list Action) : list string :=
  match tr with
  | [] => []
  | ASpawn c :: tr' => c :: spawned tr'
  | _ :: tr' => spawned tr'
  end.

Fixpoint emits (tr : list Action) : list Emit :=
  match tr with
  | [] => []
  | AEmit ev :: tr' => ev :: emits tr'
  | _ :: tr' => emits tr'
  end.

(** The values carried by the ['error'] events of a list. *)
Fixpoint error_values (evs : list Emit) : list Payload :=
  match evs with
  | [] => []
  | EmitError e :: evs' => e :: error_values evs'
  | _ :: evs' => error_values evs'
  end.

Definition is_exit (ev : Emit) : bool :=
  match ev with EmitExit => true | _ => false end.

Definition is_error (ev : Emit) : bool :=
  match ev with EmitError _ => true | _ => false end.

Definition exit_count (tr : list Action) : nat :=
  length (filter is_exit (emits tr)).

Definition error_count (tr : list Action) : nat :=
  length (filter is_error (emits tr)).

(** The terminal event: the last thing the emitter emitted, if it is
    ['exit'] or ['error']. *)
Definition terminal (tr : list Action) : option Emit :=
  match rev (emits tr) with
  | EmitExit :: _ => Some EmitExit
  | EmitError e :: _ => Some (EmitError e)
  | _ => None
  end.

End Pipeline.

(** ** [PackageManager.release]  (package.ts, lines 19-66) *)

Module Release.
Import Pipeline.

(** The [release] entry of [.gpm.yml]: [string | string[]]. *)
Inductive ReleaseCommand :=
| RcString (s : string)
| RcArray (l : list string).

(** [PackageManagerConfig]: [isReady] and the one key [release] reads. *)
Record PackageManagerConfig := {
  isReady : bool;
  release_entry : option ReleaseCommand
}.

(** [get(key)]: [ensure()] throws before the lookup when the config was
    not prepared. *)
Definition get_release (cfg : PackageManagerConfig)
  : string + option ReleaseCommand :=
  if isReady cfg then inr (release_entry cfg) else inl "config is not ready".

(** [if (releaseCommand)]: an empty string is falsy, every array is
    truthy, the empty one too. *)
Definition truthy (rc : ReleaseCommand) : bool :=
  match rc with
  | RcString "" => false
  | _ => true
  end.

(** [Array.isArray(releaseCommand) ? releaseCommand : [releaseCommand]] *)
Definition commands_of (rc : ReleaseCommand) : list string :=
  match rc with
  | RcString s => [s]
  | RcArray l => l
  end.

Inductive PromiseState :=
| Pending
| Resolved
| Rejected (reason : string).

(** What the caller of [release] can observe: the two process streams and
    the promise it was handed. *)
Record Outcome := {
  stdout : list Payload;
  stderr : list Payload;
  promise : PromiseState
}.

(** The three listeners of lines 27-31, on values the two streams accept
    (strings and byte arrays); [Sink.hear] is the same with a write that
    throws on any other value. *)
Definition listen (o : Outcome) (ev : Emit) : Outcome :=
  match ev with
  | EmitError e =>
      {| stdout := stdout o; stderr := stderr o ++ [e]; promise := promise o |}
  | EmitData p =>
      {| stdout := stdout o ++ [p]; stderr := stderr o; promise := promise o |}
  | EmitExit =>
      {| stdout := stdout o; stderr := stderr o;
         promise := match promise o with Pending => Resolved | s => s end |}
  end.

(** [pipeline(commands)] calls [run()], which executes up to its first
    [await] before [pipeline] returns; the listeners are attached after
    that, so they hear what is emitted after the first suspension only. *)
Fixpoint after_first_await (tr : list Action) : list Action :=
  match tr with
  | [] => []
  | AAwait :: tr' => tr'
  | _ :: tr' => after_first_await tr'
  end.

Definition heard (tr : list Action) : list Emit :=
  emits (after_first_await tr).

Definition fresh : Outcome :=
  {| stdout := []; stderr := []; promise := Pending |}.

Inductive ReleaseResult :=
| Piped (o : Outcome)     (* the configured command sequence was run *)
| VersionBump.            (* the package.json path of lines 35-65, not modelled *)

Section Release.
Variable World : Type.
Variable spawn : string -> World -> SpawnResult * World.

(** Lines 25-32: the promise around the pipeline. *)
Definition release_pipeline (commands : list string) (w : World) : Outcome :=
  fold_left listen (heard (fst (run spawn commands w))) fresh.

Definition release (cfg : PackageManagerConfig) (w : World) : ReleaseResult :=
  match get_release cfg with
  | inl reason =>
      Piped {| stdout := []; stderr := []; promise := Rejected reason |}
  | inr None => VersionBump
  | inr (Some rc) =>
      if truthy rc then Piped (release_pipeline (commands_of rc) w)
      else VersionBump
  end.
End Release.

Arguments release_pipeline {World} spawn commands w.
Arguments release {World} spawn cfg w.

End Release.

(** ** [sortPackageJSON]  (package.ts, lines 138-265) *)

Module PackageJson.

(** The values of a parsed package.json. *)
#[local] Unset Elimination Schemes.
Inductive Value :=
| VNull
| VBool (b : bool)
| VNum (n : Z)
| VStr (s : string)
| VArr (items : list Value)
| VObj (entries : list (string * Value)).
#[local] Set Elimination Schemes.

(** An object is the list of its own properties in the order in which
    [for ... in], [Object.keys] and [JSON.stringify] walk them: the keys
    that are array indices first, in ascending numeric order, then the
    other strings in insertion order.  The objects [sortPackageJSON] is
    given come out of a JSON parser, so their prototype is
    [Object.prototype]; the prototype is no part of the list. *)
Definition Obj := list (string * Value).

Definition keys (o : Obj) : list string := map fst o.

(** [o[key]]: [None] is [undefined]. *)
Fixpoint get (o : Obj) (key : string) : option Value :=
  match o with
  | [] => None
  | (k, v) :: o' => if String.eqb k key then Some v else get o' key
  end.

(** A decimal digit. *)
Definition digit (c : ascii) : option N :=
  let n := N_of_ascii c in
  if ((48 <=? n) && (n <=? 57))%N then Some (n - 48)%N else None.

Fixpoint number (s : string) (acc : N) : option N :=
  match s with
  | EmptyString => Some acc
  | String c s' =>
      match digit c with
      | Some d => number s' (10 * acc + d)%N
      | None => None
      end
  end.

(** An array index: the canonical decimal form of an integer below
    [2^32 - 1], so ["2"] and ["10"] but not ["02"], ["1.5"] or ["-1"]. *)
Definition index_of (key : string) : option N :=
  match key with
  | EmptyString => None
  | String "0"%char EmptyString => Some 0%N
  | String "0"%char _ => None
  | _ =>
      match number key 0 with
      | Some n => if (n <? 4294967295)%N then Some n else None
      | None => None
      end
  end.

(** A key that behaves like a plain name: no array index, and not
    [__proto__]. *)
Definition ordinary (key : string) : bool :=
  negb (String.eqb key "__proto__")
  && match index_of key with Some _ => false | None => true end.

Definition all_ordinary (o : Obj) : bool := forallb ordinary (keys o).

(** An existing property keeps its place and takes the value; a new
    name goes last. *)
Fixpoint put (o : Obj) (key : string) (v : Value) : Obj :=
  match o with
  | [] => [(key, v)]
  | (k, v0) :: o' =>
      if String.eqb k key then (k, v) :: o' else (k, v0) :: put o' key v
  end.

(** A new array index [n] goes among the array indices, before the first
    key that is a larger index or no index. *)
Fixpoint place (o : Obj) (n : N) (key : string) (v : Value) : Obj :=
  match o with
  | [] => [(key, v)]
  | (k, v0) :: o' =>
      match index_of k with
      | Some m =>
          if (m <? n)%N then (k, v0) :: place o' n key v
          else (key, v) :: (k, v0) :: o'
      | None => (key, v) :: (k, v0) :: o'
      end
  end.

(** [o[key] = v] on an object whose prototype is [Object.prototype].
    For [__proto__] the assignment runs the setter inherited from
    [Object.prototype]: it changes the prototype (when [v] is an object
    or [null]) and adds no own property. *)
Definition set (o : Obj) (key : string) (v : Value) : Obj :=
  if String.eqb key "__proto__" then o
  else
    match get o key, index_of key with
    | None, Some n => place o n key v
    | _, _ => put o key v
    end.

(** [delete o[key]] *)
Fixpoint delete (o : Obj) (key : string) : Obj :=
  match o with
  | [] => []
  | (k, v) :: o' =>
      if String.eqb k key then delete o' key else (k, v) :: delete o' key
  end.

(** JavaScript truthiness. *)
Definition truthy (v : Value) : bool :=
  match v with
  | VNull => false
  | VBool b => b
  | VNum n => negb (n =? 0)%Z
  | VStr s => negb (String.eqb s "")
  | VArr _ => true
  | VObj _ => true
  end.

(** [if (pkg[field.key])] *)
Definition truthy_at (o : Obj) (key : string) : bool :=
  match get o key with
  | Some v => truthy v
  | None => false
  end.

(** Lines 139-247. *)
Definition fields : list string :=
  [ "$schema"; "name"; "displayName"; "version"; "private"; "description";
    "categories"; "keywords"; "homepage"; "bugs"; "repository"; "funding";
    "license"; "qna"; "author"; "maintainers"; "contributors"; "publisher";
    "sideEffects"; "type"; "imports"; "exports"; "main"; "umd:main";
    "jsdelivr"; "unpkg"; "module"; "source"; "jsnext:main"; "browser"; "types";
    "typesVersions"; "typings"; "style"; "example"; "examplestyle"; "assets";
    "bin"; "man"; "directories"; "files"; "workspaces"; "binary"; "scripts";
    "betterScripts"; "contributes"; "activationEvents"; "husky";
    "simple-git-hooks"; "pre-commit"; "commitlint"; "lint-staged"; "config";
    "nodemonConfig"; "browserify"; "babel"; "browserslist"; "xo"; "prettier";
    "eslintConfig"; "eslintIgnore"; "npmpkgjsonlint";
    "npmPackageJsonLintConfig"; "npmpackagejsonlint"; "release";
    "remarkConfig"; "stylelint"; "ava"; "jest"; "mocha"; "nyc"; "c8"; "tap";
    "resolutions"; "dependencies"; "devDependencies"; "dependenciesMeta";
    "peerDependencies"; "peerDependenciesMeta"; "optionalDependencies";
    "bundledDependencies"; "bundleDependencies"; "extensionPack";
    "extensionDependencies"; "flat"; "engines"; "engineStrict"; "languageName";
    "os"; "cpu"; "preferGlobal"; "publishConfig"; "icon"; "badges";
    "galleryBanner"; "preview"; "markdown" ].

(** Lines 249-255: the loop over [fields], threading the shrinking [pkg]
    and the growing [_pkg]. *)
Fixpoint move_fields (fs : list string) (pkg _pkg : Obj) : Obj * Obj :=
  match fs with
  | [] => (pkg, _pkg)
  | key :: fs' =>
      match get pkg key with
      | Some v =>
          if truthy v then move_fields fs' (delete pkg key) (set _pkg key v)
          else move_fields fs' pkg _pkg
      | None => move_fields fs' pkg _pkg
      end
  end.

(** Lines 258-262: what is left of [pkg] is copied key by key. *)
Definition copy_rest (pkg _pkg : Obj) : Obj :=
  if Nat.eqb (length (keys pkg)) 0 then _pkg
  else
    fold_left
      (fun acc key =>
         match get pkg key with
         | Some v => set acc key v
         | None => acc
         end)
      (keys pkg) _pkg.

Definition sort_with (fs : list string) (pkg : Obj) : Obj :=
  let (rest, _pkg) := move_fields fs pkg [] in copy_rest rest _pkg.

Definition sortPackageJSON (pkg : Obj) : Obj := sort_with fields pkg.

(** The two blocks of the result. *)
Definition is_field (fs : list string) (key : string) : bool :=
  existsb (String.eqb key) fs.

(** The entries the first loop moves: the fields with a truthy value, in
    the order of the field list. *)
Definition picked (fs : list string) (pkg : Obj) : Obj :=
  flat_map
    (fun key =>
       match get pkg key with
       | Some v => if truthy v then [(key, v)] else []
       | None => []
       end)
    fs.

(** The entries the first loop leaves behind, in their original order:
    keys that are no field, and fields whose value is falsy. *)
Definition remaining (fs : list string) (pkg : Obj) : Obj :=
  filter (fun e => negb (is_field fs (fst e) && truthy (snd e))) pkg.

(** The ordering in the words of the claim: every recognised field the
    package has, in the order of the field list, then all other keys. *)
Definition recognised_first (fs : list string) (pkg : Obj) : Obj :=
  flat_map
    (fun key => match get pkg key with Some v => [(key, v)] | None => [] end)
    fs
  ++ filter (fun e => negb (is_field fs (fst e))) pkg.

End PackageJson.

(** ** [DevTools.watch]  (devtools.ts, lines 161-244) *)

Module Watch.

(** [command?: string | string[]] *)
Inductive Command :=
| CmdOne (c : string)
| CmdMany (cs : list string).

(** [!command] is true of the empty string; every array is truthy. *)
Definition command_truthy (c : Command) : bool :=
  match c with
  | CmdOne "" => false
  | _ => true
  end.

(** The command inside a template string: an array is joined with commas. *)
Definition show (c : Command) : string :=
  match c with
  | CmdOne s => s
  | CmdMany cs => String.concat "," cs
  end.

(** [ignore] is declared an array; the code also accepts a single
    pattern.  Patterns are kept as their source text. *)
Inductive Ignore :=
| IgnoreOne (p : string)
| IgnoreMany (ps : list string).

Definition ignore_truthy (ig : Ignore) : bool :=
  match ig with
  | IgnoreOne "" => false
  | _ => true
  end.

Definition patterns (ig : Ignore) : list string :=
  match ig with
  | IgnoreOne p => [p]
  | IgnoreMany ps => ps
  end.

Record WatchOptions := {
  command : option Command;
  context : option string;
  path : option string;
  ignore : option Ignore
}.

(** [DevToolsConfig]: [isReady] and the one key [watch] reads. *)
Record DevToolsConfig := {
  isReady : bool;
  watch_entry : option Command
}.

Inductive Error :=
| TypeError_ignore     (* Cannot read properties of undefined (reading 'ignore') *)
| ConfigNotReady       (* Error('config is not ready') *)
| WatchNoCommand.      (* Error('Watch no command found') *)

(** What [watch] does to the outside, in order. *)
Inductive Effect :=
| Info (line : string)                                    (* logger.info *)
| RegisterWatcher (path : string) (ignore : list string)  (* api.fs.watch *)
| CallRun (first : bool).                                 (* _run(true) *)

(** [get(key)], lines 358-362. *)
Definition get_watch (cfg : DevToolsConfig) : Error + option Command :=
  if isReady cfg then inr (watch_entry cfg) else inl ConfigNotReady.

(** [s || fallback] on an optional string. *)
Definition or_else (s : option string) (fallback : string) : string :=
  match s with
  | Some "" => fallback
  | Some s' => s'
  | None => fallback
  end.

(** [/^\//.test(path)] *)
Definition absolute (p : string) : bool :=
  match p with
  | String "/"%char _ => true
  | _ => false
  end.

(** [x?.field] *)
Definition opt {A} (field : WatchOptions -> option A)
    (options : option WatchOptions) : option A :=
  match options with
  | Some o => field o
  | None => None
  end.

(** Lines 161-244, up to the first call of the debounced runner.  The
    result is what was done to the outside and, when the call throws,
    the error. *)
Definition watch (cwd : string) (cfg : DevToolsConfig)
    (options : option WatchOptions) : list Effect * option Error :=
  (* const command = options?.command ?? this.config.get('watch') *)
  match
    match opt command options with
    | Some c => inr (Some c)
    | None => get_watch cfg
    end
  with
  | inl e => ([], Some e)
  | inr cmd =>
      let ctx := or_else (opt context options) cwd in
      (* if (options.ignore) *)
      match options with
      | None => ([], Some TypeError_ignore)
      | Some o =>
          let ign :=
            "\.git" ::
              match ignore o with
              | Some ig => if ignore_truthy ig then patterns ig else []
              | None => []
              end in
          let p := or_else (path o) ctx in
          (* if (!command) throw *)
          match cmd with
          | None => ([], Some WatchNoCommand)
          | Some c =>
              if command_truthy c then
                let p' := if absolute p then p else (cwd ++ "/" ++ p)%string in
                ([ Info ("[watch] command: " ++ show c
                           ++ " in context(" ++ ctx ++ ")")%string;
                   Info ("[watch] watching " ++ p' ++ " ...")%string;
                   RegisterWatcher p' ign;
                   CallRun true ],
                 None)
              else ([], Some WatchNoCommand)
          end
      end
  end.

(** *** The debounced handler of [createRun]  (lines 213-229) *)

(** A process handle: the number of the job execution that spawned it and
    the position of its command in that execution. *)
Definition Handle := (nat * nat)%type.

Definition handle_eqb (a b : Handle) : bool :=
  Nat.eqb (fst a) (fst b) && Nat.eqb (snd a) (snd b).

(** [let child: ChildProcess | ChildProcess[]] *)
Inductive Child :=
| ChildUndefined
| ChildOne (h : Handle)
| ChildMany (hs : list Handle).

Definition handles (c : Child) : list Handle :=
  match c with
  | ChildUndefined => []
  | ChildOne h => [h]
  | ChildMany hs => hs
  end.

(** What happens during a watch session. *)
Inductive Ev :=
| EvBanner                              (* the "file changing" lines *)
| EvSpawn (h : Handle) (cmd : string)   (* runInBackground(cmd, {cwd}) *)
| EvKill (h : Handle)                   (* h.kill() is called *)
| EvKilled (h : Handle)                 (* `await h.kill()` has resumed *)
| EvExit (h : Handle).                  (* the process has terminated *)

(** An invocation of the handler that is parked on an [await]. *)
Inductive Task :=
| AwaitKill (h : Handle) (rest : list Handle) (first : bool)
    (* on `await c.kill()`; [rest] is what the loop has still to visit *)
| AwaitRun (result : Child).
    (* on `await run(options)`; [result] is what it will resolve to *)

(** [child] is the variable the handler closes over; [runs] counts the
    job executions started; [log] is the history, latest event first. *)
Record State := {
  child : Child;
  tasks : list Task;
  runs : nat;
  log : list Ev
}.

Definition init : State :=
  {| child := ChildUndefined; tasks := []; runs := 0; log := [] |}.

(** What the environment and the timer do to a session. *)
Inductive Tick :=
| Fire (first : bool)   (* the debounce timer expires: the handler is called *)
| Resume (i : nat)      (* the promise the [i]-th parked invocation awaits settles *)
| Exit (h : Handle).    (* process [h] terminates *)

Fixpoint spawn_from (g i : nat) (cs : list string) : list (Handle * string) :=
  match cs with
  | [] => []
  | c :: cs' => ((g, i), c) :: spawn_from g (S i) cs'
  end.

Definition replace_nth {A} (i : nat) (x : A) (l : list A) : list A :=
  firstn i l ++ x :: skipn (S i) l.

Definition remove_nth {A} (i : nat) (l : list A) : list A :=
  firstn i l ++ skipn (S i) l.

Section Handler.
(** The command [watch] resolved. *)
Variable cmd : Command.

Definition banner (first : bool) : list Ev :=
  if first then [] else [EvBanner].

(** Modelled from the spec: [runInBackground] (from [../utils]) is not
    among the sources; as the process spawner of the spec it starts the
    process when it is called and yields its handle.  [run(first)],
    lines 184-208, started as job execution [g]: the handle or handles
    it resolves to, and what it does, in order. *)
Definition run (first : bool) (g : nat) : Child * list Ev :=
  match cmd with
  | CmdMany cs =>
      (ChildMany (map fst (spawn_from g 0 cs)),
       banner first
         ++ map (fun hc => EvSpawn (fst hc) (snd hc)) (spawn_from g 0 cs))
  | CmdOne c =>
      (ChildOne (g, 0), banner first ++ [EvSpawn (g, 0) c])
  end.

(** The handler from the kill loop on, with [hs] still to kill: it
    calls [kill()] on the next handle and parks, or, with none left,
    calls [run(options)] and parks on its promise. *)
Definition proceed (hs : list Handle) (first : bool) (st : State)
  : Task * State :=
  match hs with
  | h :: rest =>
      (AwaitKill h rest first,
       {| child := child st; tasks := tasks st; runs := runs st;
          log := EvKill h :: log st |})
  | [] =>
      let (result, evs) := run first (runs st) in
      (AwaitRun result,
       {| child := child st; tasks := tasks st; runs := S (runs st);
          log := rev evs ++ log st |})
  end.

(** The timer expires: a new invocation runs up to its first [await]. *)
Definition fire (first : bool) (st : State) : State :=
  let (task, st') :=
    match child st with
    | ChildUndefined => proceed [] first st      (* if (child): no *)
    | ChildMany hs => proceed hs first st        (* for (const c of child) *)
    | ChildOne h => proceed [h] first st         (* await child.kill() *)
    end in
  {| child := child st'; tasks := tasks st' ++ [task];
     runs := runs st'; log := log st' |}.

(** A parked invocation goes on to its next [await], or to its end,
    where it assigns [child]. *)
Definition resume (i : nat) (st : State) : State :=
  match nth_error (tasks st) i with
  | None => st
  | Some (AwaitKill h rest first) =>
      let (task, st') :=
        proceed rest first
          {| child := child st; tasks := tasks st; runs := runs st;
             log := EvKilled h :: log st |} in
      {| child := child st'; tasks := replace_nth i task (tasks st');
         runs := runs st'; log := log st' |}
  | Some (AwaitRun result) =>
      {| child := result; tasks := remove_nth i (tasks st);
         runs := runs st; log := log st |}
  end.

Definition step (t : Tick) (st : State) : State :=
  match t with
  | Fire first => fire first st
  | Resume i => resume i st
  | Exit h =>
      {| child := child st; tasks := tasks st; runs := runs st;
         log := EvExit h :: log st |}
  end.

Definition exec (sched : list Tick) (st : State) : State :=
  fold_left (fun s t => step t s) sched st.

(** A condition on every tick of a schedule, in the state it meets. *)
Fixpoint along (ok : Tick -> State -> bool) (sched : list Tick) (st : State)
  : bool :=
  match sched with
  | [] => true
  | t :: sched' => ok t st && along ok sched' (step t st)
  end.
End Handler.

(** The processes that have been spawned and have not terminated. *)
Fixpoint live (l : list Ev) : list Handle :=
  match l with
  | [] => []
  | EvSpawn h _ :: older => h :: live older
  | EvExit h :: older => filter (fun h' => negb (handle_eqb h' h)) (live older)
  | _ :: older => live older
  end.

Fixpoint spawned (l : list Ev) : list Handle :=
  match l with
  | [] => []
  | EvSpawn h _ :: older => h :: spawned older
  | _ :: older => spawned older
  end.

(** All the handles of a list belong to one job execution. *)
Definition one_generation (hs : list Handle) : Prop :=
  forall h1 h2, In h1 hs -> In h2 hs -> fst h1 = fst h2.

(** At no moment of the history were processes of two job executions
    alive together. *)
Fixpoint never_overlap (l : list Ev) : Prop :=
  match l with
  | [] => True
  | ev :: older => one_generation (live (ev :: older)) /\ never_overlap older
  end.

(** [h] was sent a kill and the [await] of that kill has resumed. *)
Definition retired (l : list Ev) (h : Handle) : Prop :=
  In (EvKill h) l /\ In (EvKilled h) l.

(** Whenever a process of job execution [g + 1] was spawned, every
    process of job execution [g] spawned before it had been retired. *)
Fixpoint kill_before_spawn (l : list Ev) : Prop :=
  match l with
  | [] => True
  | ev :: older =>
      match ev with
      | EvSpawn h _ =>
          forall h', In h' (spawned older) -> S (fst h') = fst h ->
                     retired older h'
      | _ => True
      end
      /\ kill_before_spawn older
  end.

(** The handler is only called when no earlier invocation is parked. *)
Definition fire_when_idle (t : Tick) (st : State) : bool :=
  match t, tasks st with
  | Fire _, _ :: _ => false
  | _, _ => true
  end.

(** An awaited [kill()] only resumes once its process has terminated. *)
Definition resume_after_exit (t : Tick) (st : State) : bool :=
  match t with
  | Resume i =>
      match nth_error (tasks st) i with
      | Some (AwaitKill h _ _) => negb (existsb (handle_eqb h) (live (log st)))
      | _ => true
      end
  | _ => true
  end.

Definition serialized (cmd : Command) := along cmd fire_when_idle.
Definition kills_awaited (cmd : Command) := along cmd resume_after_exit.

(** The arguments of the handler calls of a schedule. *)
Fixpoint fires (sched : list Tick) : list bool :=
  match sched with
  | [] => []
  | Fire first :: sched' => first :: fires sched'
  | _ :: sched' => fires sched'
  end.

(** The parked invocations that have not called [run] yet. *)
Fixpoint due (ts : list Task) : nat :=
  match ts with
  | [] => 0
  | AwaitKill _ _ _ :: ts' => S (due ts')
  | AwaitRun _ :: ts' => due ts'
  end.

(** *** Invariants of a serialized session *)

(** The processes job execution [g] starts, with their commands. *)
Definition procs (cmd : Command) (g : nat) : list (Handle * string) :=
  match cmd with
  | CmdMany cs => spawn_from g 0 cs
  | CmdOne c => [((g, 0), c)]
  end.

(** Every process of the latest job execution is accounted for: it is
    retired, or it is the one being killed, or it is still to be killed. *)
Definition accounted (st : State) : Prop :=
  match tasks st with
  | [] =>
      forall h, In h (spawned (log st)) -> S (fst h) = runs st ->
                In h (handles (child st))
  | [AwaitKill h rest _] =>
      In (EvKill h) (log st)
      /\ forall h', In h' (spawned (log st)) -> S (fst h') = runs st ->
                    retired (log st) h' \/ h' = h \/ In h' rest
  | [AwaitRun result] =>
      forall h, In h (spawned (log st)) -> S (fst h) = runs st ->
                In h (handles result)
  | _ => False
  end.

Definition ordered (st : State) : Prop :=
  kill_before_spawn (log st)
  /\ (forall h, In h (spawned (log st)) -> fst h < runs st)
  /\ accounted st.

(** The processes alive are among those the handler still holds. *)
Definition held (st : State) : Prop :=
  match tasks st with
  | [] => incl (live (log st)) (handles (child st))
  | [AwaitKill h rest _] => incl (live (log st)) (h :: rest)
  | [AwaitRun result] => incl (live (log st)) (handles result)
  | _ => False
  end.

Definition exclusive (st : State) : Prop :=
  never_overlap (log st)
  /\ (forall h, In h (live (log st)) -> S (fst h) = runs st)
  /\ held st.

End Watch.

(** ** The debounce wrapper *)

Module Debounce.

(** The delay [createRun] passes, in milliseconds. *)
Definition wait : nat := 1000.

(** The timer that is armed, as its deadline and the argument of the call
    that armed it, and the calls of the wrapped function so far, each
    with its time, in order. *)
Record Debounced := {
  pending : option (nat * bool);
  fired : list (nat * bool)
}.

Definition idle : Debounced := {| pending := None; fired := [] |}.

(** Time reaches [now]: a timer that is due calls the wrapped function. *)
Definition advance (now : nat) (d : Debounced) : Debounced :=
  match pending d with
  | Some (deadline, arg) =>
      if (deadline <=? now)%nat
      then {| pending := None; fired := fired d ++ [(deadline, arg)] |}
      else d
  | None => d
  end.

(** Modelled from the spec: [doreamon.func.debounce] is not among the
    sources; as the spec describes it, a call of the debounced function
    at time [now] drops the timer that is armed and arms one that is due
    [wait] later, so that a burst of calls ends in one call of the
    wrapped function after the burst has settled. *)
Definition call (now : nat) (arg : bool) (d : Debounced) : Debounced :=
  {| pending := Some (now + wait, arg); fired := fired (advance now d) |}.

Definition calls (cs : list (nat * bool)) (d : Debounced) : Debounced :=
  fold_left (fun d' c => call (fst c) (snd c) d') cs d.

(** The calls of the wrapped function up to time [until]. *)
Definition debounced (cs : list (nat * bool)) (until : nat) : list (nat * bool) :=
  fired (advance until (calls cs idle)).

(** A burst: every call comes before the timer of the call before it is
    due. *)
Fixpoint burst (t : nat) (later : list (nat * bool)) : bool :=
  match later with
  | [] => true
  | (t', _) :: more => ((t <=? t') && (t' <? t + wait))%nat && burst t' more
  end.

End Debounce.

(** ** Sample environments *)

Module Samples.
Import Pipeline.

(** A world that counts the spawn calls made so far. *)
Definition World := nat.

Definition prepared (rc : Release.ReleaseCommand) : Release.PackageManagerConfig :=
  {| Release.isReady := true; Release.release_entry := Some rc |}.

(** Every command prints its own name and exits with code 0, except
    ["false"], which exits with code 1, ["noisy"], which also fires its
    error stream, ["missing"], whose spawn throws, and ["server"], which
    never exits. *)
Definition spawn (command : string) (w : World) : SpawnResult * World :=
  (if String.eqb command "false" then Spawned [] (Some 1%Z)
   else if String.eqb command "noisy" then
     Spawned [ChData "out"; ChError "oops"] (Some 0%Z)
   else if String.eqb command "missing" then SpawnThrows "ENOENT"
   else if String.eqb command "server" then Spawned [ChData "listening"] None
   else Spawned [ChData command] (Some 0%Z),
   S w).

(** A session that watches one long-running command. *)
Definition serve : Watch.Command := Watch.CmdOne "serve".

(** First run, a change, the kill is awaited until the process is gone,
    second run. *)
Definition calm : list Watch.Tick :=
  [ Watch.Fire true; Watch.Resume 0;
    Watch.Fire false; Watch.Exit (0, 0); Watch.Resume 0; Watch.Resume 0 ].

(** The same, but the awaited [kill()] comes back while the process it
    signalled is still there. *)
Definition signal_only : list Watch.Tick :=
  [ Watch.Fire true; Watch.Resume 0;
    Watch.Fire false; Watch.Resume 0; Watch.Resume 0 ].

(** A kill that takes longer than the debounce delay: the handler is
    called again while the invocation before it is still parked on its
    [await]. *)
Definition slow_kill : list Watch.Tick :=
  [ Watch.Fire true; Watch.Resume 0;
    Watch.Fire false; Watch.Fire false;
    Watch.Exit (0, 0); Watch.Resume 0; Watch.Resume 1 ].

Definition unprepared : Watch.DevToolsConfig :=
  {| Watch.isReady := false; Watch.watch_entry := None |}.

Definition no_default : Watch.DevToolsConfig :=
  {| Watch.isReady := true; Watch.watch_entry := None |}.

Definition no_command : Watch.WatchOptions :=
  {| Watch.command := None; Watch.context := None;
     Watch.path := Some "src"; Watch.ignore := None |}.

(** A package with a key that is no field and a field whose value is
    falsy. *)
Definition pkg : PackageJson.Obj :=
  [ ("zeta", PackageJson.VNum 1);
    ("private", PackageJson.VBool false);
    ("version", PackageJson.VStr "1.0.0");
    ("name", PackageJson.VStr "gpm") ].

(** A package with two keys that are array indices, in the order in which
    the parser hands them over. *)
Definition numbered : PackageJson.Obj :=
  [ ("2", PackageJson.VStr "two");
    ("10", PackageJson.VStr "ten");
    ("zeta", PackageJson.VNum 1);
    ("name", PackageJson.VStr "gpm") ].

(** A package with an own [__proto__] key. *)
Definition polluted : PackageJson.Obj :=
  [ ("zeta", PackageJson.VNum 1);
    ("__proto__", PackageJson.VObj [("evil", PackageJson.VNum 1)]);
    ("name", PackageJson.VStr "gpm") ].
End Samples.

From Stdlib Require Import Sorted.

(** ** What a pipeline forwards and how it ends *)

Module Stream.
Import Pipeline.

Section Stream.
Variable World : Type.
Variable spawn : string -> World -> SpawnResult * World.

(** The chunks the children of a pipeline hand to their listeners, on
    either stream, child after child, up to the command at which the
    pipeline stops. *)
Fixpoint forwarded (commands : list string) (w : World) : list Payload :=
  match commands with
  | [] => []
  | command :: rest =>
      match spawn command w with
      | (SpawnThrows _, _) => []
      | (Spawned output None, _) => map payload output
      | (Spawned output (Some _), w') => map payload output ++ forwarded rest w'
      end
  end.

(** The event a pipeline ends with: ['exit'] when every command exits,
    ['error'] at the first spawn that throws, none when a child never
    exits. *)
Fixpoint ending (commands : list string) (w : World) : list Emit :=
  match commands with
  | [] => [EmitExit]
  | command :: rest =>
      match spawn command w with
      | (SpawnThrows e, _) => [EmitError e]
      | (Spawned _ None, _) => []
      | (Spawned _ (Some _), w') => ending rest w'
      end
  end.
End Stream.


Arguments forwarded {World} spawn commands w.
Arguments ending {World} spawn commands w.

End Stream.

(** ** The listeners of [release] and the process streams
       (package.ts, lines 25-32) *)

Module Sink.
Import Pipeline Release.

Section Sink.
(** Whether a value is a chunk the process streams accept: a string or a
    byte array.  The values are typed [any] in the source, and what
    [api.$.spawn] throws or hands to the listeners of a child is not
    among the sources, so this is a parameter. *)
Variable writable : Payload -> bool.

(** [process.stdout.write(e)], [process.stderr.write(e)]: the chunk is
    appended to the stream; on a value the stream does not accept the
    call throws a TypeError ([None]) and nothing is written. *)
Definition write (stream : list Payload) (e : Payload)
  : option (list Payload) :=
  if writable e then Some (stream ++ [e]) else None.

(** The three listeners of lines 27-31; [None]: the listener threw. *)
Definition hear (o : Outcome) (ev : Emit) : option Outcome :=
  match ev with
  | EmitError e =>
      match write (stderr o) e with
      | Some s =>
          Some {| stdout := stdout o; stderr := s; promise := promise o |}
      | None => None
      end
  | EmitData p =>
      match write (stdout o) p with
      | Some s =>
          Some {| stdout := s; stderr := stderr o; promise := promise o |}
      | None => None
      end
  | EmitExit =>
      Some {| stdout := stdout o; stderr := stderr o;
              promise := match promise o with Pending => Resolved | s => s end |}
  end.

(** The events in turn, up to the first listener that throws: where the
    exception goes from there is up to the emitter and to the runtime,
    which are not among the sources.  [true]: no listener threw. *)
Fixpoint hear_all (evs : list Emit) (o : Outcome) : Outcome * bool :=
  match evs with
  | [] => (o, true)
  | ev :: evs' =>
      match hear o ev with
      | Some o' => hear_all evs' o'
      | None => (o, false)
      end
  end.


Section Released.
Variable World : Type.
Variable spawn : string -> World -> SpawnResult * World.

(** Lines 25-32 over such streams: what the caller of [release] can
    observe up to the first listener that throws. *)
Definition released (commands : list string) (w : World) : Outcome * bool :=
  hear_all (heard (fst (run spawn commands w))) fresh.
End Released.
End Sink.

Arguments released writable {World} spawn commands w.

End Sink.

(** ** The version bump of [release]  (package.ts, lines 59-61) *)

Module Bump.
Import PackageJson.

(** [pkg.version = answers.newVersion], then [sortPackageJSON(pkg)]: the
    object that is written back to package.json. *)
Definition bumped (pkg : Obj) (newVersion : string) : Obj :=
  sortPackageJSON (set pkg "version" (VStr newVersion)).

(** [sortPackageJSON] deletes from its argument what it moves: this is what
    the caller's object holds after the call. *)
Definition leftover (pkg : Obj) : Obj := fst (move_fields fields pkg []).

End Bump.

(** ** [DevToolsConfig]  (devtools.ts, lines 318-379) *)

Module Config.

(** The names every plain object answers for without having them: the
    properties of [Object.prototype].  A read of one of them on an object
    that has no own property of that name finds the inherited value, and
    an assignment to [__proto__] changes the prototype. *)
Definition inherited : list string :=
  [ "constructor"; "hasOwnProperty"; "isPrototypeOf"; "propertyIsEnumerable";
    "toLocaleString"; "toString"; "valueOf"; "__proto__";
    "__defineGetter__"; "__defineSetter__"; "__lookupGetter__";
    "__lookupSetter__" ].

(** A key that is read and written as an own property only. *)
Definition own_only (key : string) : bool :=
  negb (existsb (String.eqb key) inherited).

Section Store.
(** The values of the config file and the test [!value] on them. *)
Variable V : Type.
Variable truthy : V -> bool.

(** [a.localeCompare(b)], an external primitive: negative, zero or
    positive. *)
Variable localeCompare : string -> string -> Z.

(** The object [_config], a plain object: its own properties in insertion
    order, which is the order [Object.keys] and the file writer walk
    ordinary (not index-like) string keys. *)
Definition Entries := list (string * V).

(** [es[key]] among the own properties, which is all of [es[key]] for a
    key that is [own_only]. *)
Fixpoint lookup (es : Entries) (key : string) : option V :=
  match es with
  | [] => None
  | (k, v) :: es' => if String.eqb k key then Some v else lookup es' key
  end.

(** [es[key] = v] *)
Fixpoint assign (es : Entries) (key : string) (v : V) : Entries :=
  match es with
  | [] => [(key, v)]
  | (k, v0) :: es' =>
      if String.eqb k key then (k, v) :: es' else (k, v0) :: assign es' key v
  end.

(** [delete es[key]] *)
Fixpoint remove (es : Entries) (key : string) : Entries :=
  match es with
  | [] => []
  | (k, v) :: es' =>
      if String.eqb k key then remove es' key else (k, v) :: remove es' key
  end.

(** The two fields of the class; [_config] is [undefined] until [load]. *)
Record State := {
  _config : option Entries;
  isReady : bool
}.

Definition unloaded : State := {| _config := None; isReady := false |}.

Inductive Error :=
| NotReady          (* Error('config is not ready') *)
| TypeError_config. (* a property access on the undefined [_config] *)

(** [load()], lines 326-334; [file] is the object [config.load] yields
    when the file exists, [None] when [api.fs.exist] says it does not. *)
Definition load (file : option Entries) (st : State) : State :=
  {| _config := Some match file with Some c => c | None => [] end;
     isReady := true |}.

(** [prepare()], lines 354-356. *)
Definition prepare := load.

(** [get(key)], lines 358-362: [ensure()], then [_config?.[key] ?? null]. *)
Definition get (key : string) (st : State) : Error + option V :=
  if isReady st then
    inr match _config st with
        | Some es => lookup es key
        | None => None
        end
  else inl NotReady.

(** [getAll()], lines 376-378: no [ensure()]. *)
Definition getAll (st : State) : option Entries := _config st.

(** [Array.prototype.sort] with the comparator of line 339, as a stable
    insertion sort. *)
Fixpoint insert (key : string) (sorted : list string) : list string :=
  match sorted with
  | [] => [key]
  | k :: rest =>
      if (localeCompare key k <? 0)%Z then key :: k :: rest
      else k :: insert key rest
  end.

Definition sort (ks : list string) : list string :=
  fold_left (fun acc key => insert key acc) ks [].

(** [sync()], lines 336-346, up to its [await]: the object handed to
    [api.fs.yml.write]. *)
Definition snapshot (es : Entries) : Entries :=
  fold_left
    (fun all path =>
       match lookup es path with
       | Some v => assign all path v
       | None => all
       end)
    (sort (map fst es)) [].

(** [set(key, value)], lines 364-374: the error thrown, if any, the state
    after the call, and the objects written to the file. *)
Definition set (key : string) (value : V) (st : State)
  : option Error * State * list Entries :=
  if isReady st then
    match _config st with
    | None => (Some TypeError_config, st, [])
    | Some es =>
        let es' := if truthy value then assign es key value else remove es key in
        (None, {| _config := Some es'; isReady := isReady st |}, [snapshot es'])
    end
  else (Some NotReady, st, []).

End Store.

Arguments Entries V : clear implicits.
Arguments State V : clear implicits.
Arguments lookup {V} es key.
Arguments assign {V} es key v.
Arguments remove {V} es key.
Arguments _config {V} s.
Arguments isReady {V} s.
Arguments unloaded {V}.
Arguments load {V} file st.
Arguments prepare {V} file st.
Arguments get {V} key st.
Arguments getAll {V} st.
Arguments snapshot {V} localeCompare es.
Arguments set {V} truthy localeCompare key value st.

(** The order the comparator stands for. *)
Definition le (localeCompare : string -> string -> Z) (a b : string) : Prop :=
  (localeCompare a b <= 0)%Z.

End Config.

(** ** The verbs of [DevTools]  (devtools.ts, lines 67-159, 246-311) *)

Module DevTools.
Import Watch.

(** What a verb does to the outside. *)
Inductive Effect :=
| Shell (command : string)     (* runInShell(command) *)
| Log (line : string)          (* logger.info *)
| Prompt (message : string)    (* inquirer.prompt *)
| Rimraf (dir : string).       (* api.fs.rimraf(dir) *)

(** How the promise of a verb settles.  [Promise.all] rejects with the
    rejection that comes first in time: [reasons] are the candidates. *)
Inductive Outcome :=
| Fulfilled
| Rejected (reasons : list string)
| Threw (e : Config.Error).

(** [Array.isArray(command) ? command : [command]] *)
Definition commands (c : Command) : list string :=
  match c with
  | CmdOne s => [s]
  | CmdMany cs => cs
  end.

Section Verbs.
(** Modelled from the spec: [runInShell] (from [../utils]) is not among
    the sources; a call runs the command in a shell, and its promise is
    fulfilled ([None]) or rejected with a reason. *)
Variable shell : string -> option string.

(** [path.resolve], [api.fs.exist] and [api.fs.isDir]: external. *)
Variable resolve : string -> string -> string.
Variable exist : string -> bool.
Variable isDir : string -> bool.

Definition failures (cs : list string) : list string :=
  flat_map (fun c => match shell c with Some e => [e] | None => [] end) cs.

(** The common tail of the verbs: an array goes to [Promise.all] over
    [runInShell], a string to [runInShell]. *)
Definition in_shell (c : Command) : list Effect * Outcome :=
  match c with
  | CmdMany cs =>
      (map Shell cs,
       match failures cs with [] => Fulfilled | es => Rejected es end)
  | CmdOne s =>
      ([Shell s],
       match shell s with None => Fulfilled | Some e => Rejected [e] end)
  end.

(** [options?.command ?? this.config.get(key)] *)
Definition resolve_command (given : option Command) (key : string)
    (st : Config.State Command) : Config.Error + option Command :=
  match given with
  | Some c => inr (Some c)
  | None => Config.get key st
  end.

(** [bootstrap], [build], [test], [run], [cli] and [install]:
    [options?.command ?? this.config.get(key) ?? default], then the shell. *)
Definition verb (key default : string) (given : option Command)
    (st : Config.State Command) : list Effect * Outcome :=
  match resolve_command given key st with
  | inl e => ([], Threw e)
  | inr (Some c) => in_shell c
  | inr None => in_shell (CmdOne default)
  end.

Definition bootstrap := verb "bootstrap" "yarn bootstrap".
Definition build := verb "build" "yarn build".
Definition test := verb "test" "yarn test".
Definition run := verb "run" "yarn prod".
Definition cli := verb "cli" "yarn cli".
Definition install := verb "install" "yarn".

(** [`${options?.context}`] *)
Definition show_context (context : option string) : string :=
  match context with
  | Some s => s
  | None => "undefined"
  end.

(** [dev], lines 79-95: the same with a line of log first. *)
Definition dev (given : option Command) (context : option string)
    (st : Config.State Command) : list Effect * Outcome :=
  match resolve_command given "dev" st with
  | inl e => ([], Threw e)
  | inr cmd =>
      let c := match cmd with Some c => c | None => CmdOne "yarn dev" end in
      (Log ("[dev] command: " ++ show c
              ++ " in context(" ++ show_context context ++ ")")%string
         :: fst (in_shell c),
       snd (in_shell c))
  end.

(** [clean], lines 273-302. *)
Definition dirs : list string := ["node_modules"; "dist"; "lib"].

Definition removals (cwd : string) : list Effect :=
  flat_map
    (fun name =>
       let dir := resolve cwd name in
       if exist dir && isDir dir then [Rimraf dir] else [])
    dirs.

(** Lines 284-301: the question and, on a yes, the removals. *)
Definition ask (cwd : string) (ok : bool) : list Effect :=
  Prompt ("Confirm to remove " ++ String.concat "/" dirs ++ " ?")%string
    :: (if ok then removals cwd else []).

Definition clean (cwd : string) (given : option Command)
    (st : Config.State Command) (ok : bool) : list Effect * Outcome :=
  match resolve_command given "clean" st with
  | inl e => ([], Threw e)
  | inr None => (ask cwd ok, Fulfilled)
  | inr (Some c) =>
      if command_truthy c then
        match c with
        | CmdMany cs => in_shell (CmdMany cs)            (* return *)
        | CmdOne s =>
            match shell s with
            | Some e => ([Shell s], Rejected [e])
            | None => (Shell s :: ask cwd ok, Fulfilled)  (* falls through *)
            end
        end
      else (ask cwd ok, Fulfilled)
  end.

End Verbs.

(** The config as [watch] reads it. *)
Definition view (st : Config.State Command) : DevToolsConfig :=
  {| Watch.isReady := Config.isReady st;
     watch_entry :=
       match Config._config st with
       | Some es => Config.lookup es "watch"
       | None => None
       end |}.

End DevTools.

(** ** One whole invocation of the debounced handler *)

Module Cycle.
Import Watch.

(** The handler is called and every promise it awaits settles in turn: one
    [await] for each handle it holds and one for [run]. *)
Definition invoke (cmd : Command) (first : bool) (st : State) : State :=
  exec cmd
    (Fire first :: repeat (Resume 0) (S (length (handles (child st))))) st.

(** The processes a run of events starts: the handle and the command of
    each [runInBackground] call, in order. *)
Fixpoint launched (evs : list Ev) : list (Handle * string) :=
  match evs with
  | [] => []
  | EvSpawn h c :: evs' => (h, c) :: launched evs'
  | _ :: evs' => launched evs'
  end.

(** What the kill loop of lines 217-225 records for the handles it visits. *)
Definition kills (hs : list Handle) : list Ev :=
  flat_map (fun h => [EvKill h; EvKilled h]) hs.

End Cycle.

(** ** The [clean] subcommand  (after devtools.ts, the command file) *)

Module CleanCommand.
Import Watch DevTools.

Section Action.
Variable shell : string -> option string.
Variable resolve : string -> string -> string.
Variable exist : string -> bool.
Variable isDir : string -> bool.

End Action.

End CleanCommand.

(** ** More sample environments *)

Module Fixtures.

(** Code-point order, standing in for [localeCompare]. *)
Definition by_code (a b : string) : Z :=
  match String.compare a b with
  | Lt => (-1)%Z
  | Eq => 0%Z
  | Gt => 1%Z
  end.

(** A config file with two verbs. *)
Definition file : Config.Entries Watch.Command :=
  [ ("watch", Watch.CmdOne "yarn serve");
    ("build", Watch.CmdMany ["tsc"; "rollup -c"]) ].

Definition ready : Config.State Watch.Command :=
  Config.load (Some file) Config.unloaded.

(** A shell in which [tsc] fails. *)
Definition shell (c : string) : option string :=
  if String.eqb c "tsc" then Some "exit 2" else None.

Definition resolve (cwd name : string) : string := (cwd ++ "/" ++ name)%string.

(** A working directory with [node_modules] and a file called [lib]. *)
Definition exist (p : string) : bool :=
  String.eqb p "/repo/node_modules" || String.eqb p "/repo/lib".

Definition isDir (p : string) : bool := String.eqb p "/repo/node_modules".

Definition options : Watch.WatchOptions :=
  {| Watch.command := None; Watch.context := None;
     Watch.path := Some "src"; Watch.ignore := Some (Watch.IgnoreMany ["dist"]) |}.

(** Options that give the empty string as the command. *)
Definition empty_command : Watch.WatchOptions :=
  {| Watch.command := Some (Watch.CmdOne ""); Watch.context := None;
     Watch.path := None; Watch.ignore := None |}.

Definition with_default : Watch.DevToolsConfig :=
  {| Watch.isReady := true; Watch.watch_entry := Some (Watch.CmdOne "yarn serve") |}.

(** Streams that accept every value but the error of a failed spawn. *)
Definition text_only (e : Pipeline.Payload) : bool :=
  negb (String.eqb e "ENOENT").

Definition package : PackageJson.Obj :=
  [ ("scripts", PackageJson.VObj []);
    ("name", PackageJson.VStr "gpm");
    ("version", PackageJson.VStr "1.0.0");
    ("zeta", PackageJson.VNum 1) ].

End Fixtures.

(* ================================================================== *)
(** * Part II: properties *)
(* ================================================================== *)

(** ** The command pipeline *)

Section PipelineFacts.
Import Pipeline.
Variable World : Type.
Variable spawn : string -> World -> SpawnResult * World.


Lemma spawned_app (t1 t2 : list Action) :
  spawned (t1 ++ t2) = spawned t1 ++ spawned t2.
Proof.
  induction t1 as [|a t1 IH]; simpl; [reflexivity|].
  destruct a; simpl; rewrite IH; reflexivity.
Qed.

Lemma emits_app (t1 t2 : list Action) :
  emits (t1 ++ t2) = emits t1 ++ emits t2.
Proof.
  induction t1 as [|a t1 IH]; simpl; [reflexivity|].
  destruct a; simpl; rewrite IH; reflexivity.
Qed.

Lemma spawned_forward (output : list ChildEvent) :
  spawned (map forward output) = [].
Proof.
  induction output as [|ev output IH]; simpl; [reflexivity|].
  destruct ev; simpl; exact IH.
Qed.

Lemma emits_forward (output : list ChildEvent) :
  emits (map forward output) = map (fun ev => EmitData (payload ev)) output.
Proof.
  induction output as [|ev output IH]; simpl; [reflexivity|].
  destruct ev; simpl; rewrite IH; reflexivity.
Qed.

Lemma emits_segment_data (c : string) (w : World) :
  Forall (fun ev => is_exit ev = false /\ is_error ev = false)
         (emits (segment spawn c w)).
Proof.
  unfold segment.
  destruct (fst (spawn c w)) as [e|output [code|]]; simpl; try constructor.
  rewrite emits_app, emits_forward. simpl. rewrite app_nil_r.
  apply Forall_forall. intros ev Hin.
  apply in_map_iff in Hin. destruct Hin as [x [<- _]]. split; reflexivity.
Qed.

Lemma emits_segments_data (cs : list string) (w : World) :
  Forall (fun ev => is_exit ev = false /\ is_error ev = false)
         (emits (segments spawn cs w)).
Proof.
  revert w. induction cs as [|c cs IH]; intros w; simpl; [constructor|].
  rewrite emits_app. apply Forall_app. split.
  - apply emits_segment_data.
  - apply IH.
Qed.

Lemma filter_none {A} (f : A -> bool) (l : list A) :
  Forall (fun x => f x = false) l -> filter f l = [].
Proof.
  induction 1 as [|x l Hx _ IH]; simpl; [reflexivity|].
  rewrite Hx. exact IH.
Qed.

Lemma segments_no_exit (cs : list string) (w : World) :
  filter is_exit (emits (segments spawn cs w)) = [].
Proof.
  apply filter_none. eapply Forall_impl; [|apply emits_segments_data].
  intros ev [H _]. exact H.
Qed.

Lemma segments_no_error (cs : list string) (w : World) :
  filter is_error (emits (segments spawn cs w)) = [].
Proof.
  apply filter_none. eapply Forall_impl; [|apply emits_segments_data].
  intros ev [_ H]. exact H.
Qed.

Lemma spawned_segments (cs : list string) (w : World) :
  all_exit spawn cs w = true -> spawned (segments spawn cs w) = cs.
Proof.
  revert w. induction cs as [|c cs IH]; intros w H; simpl in *; [reflexivity|].
  unfold segment.
  destruct (spawn c w) as [[e|output [code|]] w'] eqn:E; try discriminate.
  simpl. rewrite spawned_app, spawned_app, spawned_forward. simpl.
  rewrite (IH w' H). reflexivity.
Qed.

(** While the commands exit, [run] walks down the list: the trace of a
    prefix whose commands all exit is its [segments], and the rest of the
    list is run spawn in the world the prefix left behind. *)
Lemma run_app (pre rest : list string) (w : World) :
  all_exit spawn pre w = true ->
  run spawn (pre ++ rest) w =
    (segments spawn pre w ++ fst (run spawn rest (world_after spawn pre w)),
     snd (run spawn rest (world_after spawn pre w))).
Proof.
  revert w. induction pre as [|c pre IH]; intros w H; simpl in *.
  - destruct (run spawn rest w); reflexivity.
  - unfold segment.
    destruct (spawn c w) as [[e|output [code|]] w'] eqn:E; try discriminate.
    simpl. rewrite (IH w' H). simpl.
    rewrite <- !app_assoc. reflexivity.
Qed.

Lemma run_all_exit (cs : list string) (w : World) :
  all_exit spawn cs w = true ->
  run spawn cs w = (segments spawn cs w ++ [AEmit EmitExit], Settled).
Proof.
  intros H. rewrite <- (app_nil_r cs) at 1.
  rewrite (run_app cs [] w H). reflexivity.
Qed.

Lemma terminal_snoc (tr : list Action) (ev : Emit) :
  terminal (tr ++ [AEmit ev]) =
    match ev with
    | EmitExit => Some EmitExit
    | EmitError e => Some (EmitError e)
    | EmitData _ => None
    end.
Proof.
  unfold terminal. rewrite emits_app. simpl. rewrite rev_app_distr. simpl.
  destruct ev; reflexivity.
Qed.

(** The trace of a pipeline whose [k]-th spawn throws after the commands
    before it have exited. *)
Lemma run_throw (pre post : list string) (c : string) (w : World) (e : Payload) :
  all_exit spawn pre w = true ->
  fst (spawn c (world_after spawn pre w)) = SpawnThrows e ->
  run spawn (pre ++ c :: post) w =
    (segments spawn pre w ++ [ASpawn c; AAwait; AEmit (EmitError e)], Settled).
Proof.
  intros Hpre Hc. rewrite (run_app pre (c :: post) w Hpre). simpl.
  destruct (spawn c (world_after spawn pre w)) as [r w']. simpl in Hc. subst r.
  reflexivity.
Qed.

Lemma all_exit_app (pre post : list string) (w : World) :
  all_exit spawn (pre ++ post) w
  = all_exit spawn pre w && all_exit spawn post (world_after spawn pre w).
Proof.
  revert w. induction pre as [|c pre IH]; intros w; simpl; [reflexivity|].
  destruct (spawn c w) as [[e|output [code|]] w']; simpl; auto.
Qed.

Lemma segments_app (pre post : list string) (w : World) :
  segments spawn (pre ++ post) w
  = segments spawn pre w ++ segments spawn post (world_after spawn pre w).
Proof.
  revert w. induction pre as [|c pre IH]; intros w; simpl; [reflexivity|].
  rewrite IH, app_assoc. reflexivity.
Qed.

Lemma world_after_snoc (pre : list string) (c : string) (w : World) :
  world_after spawn (pre ++ [c]) w = snd (spawn c (world_after spawn pre w)).
Proof.
  revert w. induction pre as [|c0 pre IH]; intros w; simpl; [reflexivity|].
  apply IH.
Qed.

Lemma run_head (c : string) (rest : list string) (w : World) :
  exists t, fst (run spawn (c :: rest) w) = ASpawn c :: AAwait :: t.
Proof.
  simpl. destruct (spawn c w) as [[e|output [code|]] w'].
  - eexists; reflexivity.
  - destruct (run spawn rest w') as [tr st]. eexists; reflexivity.
  - eexists; reflexivity.
Qed.

(** Command [c2] is spawned right after the exit listener of [c1] has
    resolved, and nothing but [pre] and [c1] was spawned before. *)
Lemma handover (pre post : list string) (c1 c2 : string) (w : World) :
  all_exit spawn (pre ++ [c1]) w = true ->
  exists t1 t2 code,
    fst (run spawn (pre ++ c1 :: c2 :: post) w)
      = t1 ++ AResolve c1 code :: ASpawn c2 :: t2
    /\ spawned t1 = pre ++ [c1]
    /\ exists output,
         fst (spawn c1 (world_after spawn pre w)) = Spawned output (Some code).
Proof.
  intros H.
  pose proof H as H'. rewrite all_exit_app in H'.
  apply andb_true_iff in H'. destruct H' as [Hpre Hc1].
  replace (pre ++ c1 :: c2 :: post) with ((pre ++ [c1]) ++ c2 :: post)
    by (rewrite <- app_assoc; reflexivity).
  rewrite (run_app _ _ _ H). cbn [fst].
  destruct (run_head c2 post (world_after spawn (pre ++ [c1]) w)) as [t Ht].
  rewrite Ht. rewrite segments_app. simpl segments at 2. rewrite app_nil_r.
  simpl in Hc1. unfold segment.
  destruct (spawn c1 (world_after spawn pre w)) as [[e|output [code|]] w'] eqn:E;
    try discriminate.
  cbn [fst].
  exists (segments spawn pre w ++ ASpawn c1 :: AAwait :: map forward output),
    (AAwait :: t), code.
  split; [|split].
  - rewrite <- !app_assoc. simpl. rewrite <- app_assoc. reflexivity.
  - rewrite spawned_app. simpl. rewrite spawned_forward.
    rewrite (spawned_segments pre w Hpre). reflexivity.
  - exists output. reflexivity.
Qed.

(** ['exit'] is emitted once when every command exits and not at all
    otherwise. *)
Lemma exit_count_run (cs : list string) (w : World) :
  exit_count (fst (run spawn cs w)) = if all_exit spawn cs w then 1 else 0.
Proof.
  revert w. induction cs as [|c cs IH]; intros w; simpl; [reflexivity|].
  destruct (spawn c w) as [[e|output [code|]] w'].
  - reflexivity.
  - specialize (IH w'). destruct (run spawn cs w') as [tr st]. simpl in *.
    unfold exit_count in *. simpl.
    rewrite emits_app, emits_forward, filter_app. simpl.
    rewrite length_app, IH.
    rewrite filter_none; [reflexivity|].
    apply Forall_forall. intros ev Hin. apply in_map_iff in Hin.
    destruct Hin as [x [<- _]]. reflexivity.
  - unfold exit_count. simpl. rewrite emits_forward.
    rewrite filter_none; [reflexivity|].
    apply Forall_forall. intros ev Hin. apply in_map_iff in Hin.
    destruct Hin as [x [<- _]]. reflexivity.
Qed.

(** A spawn that throws ends the trace: nothing is spawned after it and
    the value thrown is the last event. *)
Lemma throw_ends_trace
    (pre post : list string) (c : string) (w : World) (e : Payload) :
  all_exit spawn pre w = true ->
  fst (spawn c (world_after spawn pre w)) = SpawnThrows e ->
  spawned (fst (run spawn (pre ++ c :: post) w)) = pre ++ [c]
  /\ terminal (fst (run spawn (pre ++ c :: post) w)) = Some (EmitError e).
Proof.
  intros Hpre Hc. rewrite (run_throw pre post c w e Hpre Hc). cbn [fst].
  split.
  - rewrite spawned_app, (spawned_segments pre w Hpre). reflexivity.
  - change [ASpawn c; AAwait; AEmit (EmitError e)]
      with ([ASpawn c; AAwait] ++ [AEmit (EmitError e)]).
    rewrite app_assoc. apply terminal_snoc.
Qed.

(** C4.  When the commands before [c] all exit and the spawn of [c]
    throws [e], the pipeline has spawned exactly those commands and [c],
    in order, spawns none of the commands after [c], emits ['error'] once,
    carrying [e], as its last event, and never emits ['exit']. *)
Theorem spawn_error_stops_pipeline
    (pre post : list string) (c : string) (w : World) (e : Payload) :
  all_exit spawn pre w = true ->
  fst (spawn c (world_after spawn pre w)) = SpawnThrows e ->
  spawned (fst (run spawn (pre ++ c :: post) w)) = pre ++ [c]
  /\ filter is_error (emits (fst (run spawn (pre ++ c :: post) w))) = [EmitError e]
  /\ exit_count (fst (run spawn (pre ++ c :: post) w)) = 0
  /\ terminal (fst (run spawn (pre ++ c :: post) w)) = Some (EmitError e)
  /\ snd (run spawn (pre ++ c :: post) w) = Settled.
Proof.
  intros Hpre Hc. rewrite (run_throw pre post c w e Hpre Hc). cbn [fst snd].
  repeat split.
  - rewrite spawned_app, (spawned_segments pre w Hpre). reflexivity.
  - rewrite emits_app, filter_app, segments_no_error. reflexivity.
  - unfold exit_count. rewrite emits_app, filter_app, segments_no_exit.
    reflexivity.
  - change [ASpawn c; AAwait; AEmit (EmitError e)]
      with ([ASpawn c; AAwait] ++ [AEmit (EmitError e)]).
    rewrite app_assoc. apply terminal_snoc.
Qed.

(** C5.  When every command exits, the trace is the commands' segments in
    order followed by one ['exit']: each command is spawned once, in the
    order of the list, a command is spawned right after the exit of the
    one before it, ['exit'] is emitted once, as the last event, and
    ['error'] never.  For the empty list the trace is that ['exit']
    alone, emitted before [run()] ever suspends. *)
Theorem all_exit_pipeline (commands : list string) (w : World) :
  all_exit spawn commands w = true ->
  run spawn commands w = (segments spawn commands w ++ [AEmit EmitExit], Settled)
  /\ spawned (fst (run spawn commands w)) = commands
  /\ exit_count (fst (run spawn commands w)) = 1
  /\ error_count (fst (run spawn commands w)) = 0
  /\ terminal (fst (run spawn commands w)) = Some EmitExit
  /\ (forall pre c1 c2 post, commands = pre ++ c1 :: c2 :: post ->
        exists t1 t2 code,
          fst (run spawn commands w) = t1 ++ AResolve c1 code :: ASpawn c2 :: t2
          /\ spawned t1 = pre ++ [c1])
  /\ (commands = [] -> fst (run spawn commands w) = [AEmit EmitExit]).
Proof.
  intros H. rewrite (run_all_exit commands w H). cbn [fst].
  repeat split.
  - rewrite spawned_app, (spawned_segments commands w H). apply app_nil_r.
  - unfold exit_count. rewrite emits_app, filter_app, segments_no_exit.
    reflexivity.
  - unfold error_count. rewrite emits_app, filter_app, segments_no_error.
    reflexivity.
  - apply terminal_snoc.
  - intros pre c1 c2 post ->.
    assert (H1 : all_exit spawn (pre ++ [c1]) w = true).
    { replace (pre ++ c1 :: c2 :: post) with ((pre ++ [c1]) ++ c2 :: post) in H
        by (rewrite <- app_assoc; reflexivity).
      rewrite all_exit_app in H. apply andb_true_iff in H. apply H. }
    destruct (handover pre post c1 c2 w H1) as (t1 & t2 & code & Ht & Hs & _).
    exists t1, t2, code. split; [|exact Hs].
    rewrite <- Ht, (run_all_exit _ w H). reflexivity.
  - intros ->. reflexivity.
Qed.

(** C6.  A command that exits with a code other than 0 is handled as one
    that exits with 0: the command after it is spawned right after its
    exit, and when the commands after it exit too the pipeline spawns
    them all, ends with ['exit'] and emits no ['error']. *)
Theorem nonzero_exit_is_progress
    (pre post : list string) (c : string) (w w' : World)
    (output : list ChildEvent) (code : Z) :
  all_exit spawn pre w = true ->
  spawn c (world_after spawn pre w) = (Spawned output (Some code), w') ->
  code <> 0%Z ->
  (forall next post', post = next :: post' ->
     exists t1 t2,
       fst (run spawn (pre ++ c :: post) w)
         = t1 ++ AResolve c code :: ASpawn next :: t2
       /\ spawned t1 = pre ++ [c])
  /\ (all_exit spawn post w' = true ->
        spawned (fst (run spawn (pre ++ c :: post) w)) = pre ++ c :: post
        /\ terminal (fst (run spawn (pre ++ c :: post) w)) = Some EmitExit
        /\ error_count (fst (run spawn (pre ++ c :: post) w)) = 0).
Proof.
  intros Hpre Hc _. split.
  - intros next post' ->.
    assert (H1 : all_exit spawn (pre ++ [c]) w = true).
    { rewrite all_exit_app, Hpre. simpl. rewrite Hc. reflexivity. }
    destruct (handover pre post' c next w H1)
      as (t1 & t2 & code' & Ht & Hs & output' & Hout).
    rewrite Hc in Hout. simpl in Hout. injection Hout as _ <-.
    exists t1, t2. split; assumption.
  - intros Hpost.
    assert (H : all_exit spawn (pre ++ c :: post) w = true).
    { rewrite all_exit_app, Hpre. simpl. rewrite Hc. exact Hpost. }
    rewrite (run_all_exit _ w H). cbn [fst]. repeat split.
    + rewrite spawned_app, (spawned_segments _ w H). apply app_nil_r.
    + apply terminal_snoc.
    + unfold error_count. rewrite emits_app, filter_app, segments_no_error.
      reflexivity.
Qed.

(** C2, as amended.  A spawn that throws is terminal: no later command is
    spawned and the value thrown is the pipeline's ['error'] event.  An
    event of a command's error stream is not: it is forwarded as a
    ['data'] event, and the pipeline goes on to the exit of that command
    and to the commands after it. *)
Theorem throw_is_terminal_error_stream_is_data
    (pre post : list string) (c : string) (w : World) :
  all_exit spawn pre w = true ->
  (forall e, fst (spawn c (world_after spawn pre w)) = SpawnThrows e ->
     spawned (fst (run spawn (pre ++ c :: post) w)) = pre ++ [c]
     /\ terminal (fst (run spawn (pre ++ c :: post) w)) = Some (EmitError e))
  /\ (forall output code p,
        fst (spawn c (world_after spawn pre w)) = Spawned output (Some code) ->
        In (ChError p) output ->
        In (AEmit (EmitData p)) (segment spawn c (world_after spawn pre w))
        /\ ~ In (AEmit (EmitError p)) (segment spawn c (world_after spawn pre w))
        /\ run spawn (pre ++ c :: post) w =
             (segments spawn pre w ++ segment spawn c (world_after spawn pre w)
                ++ fst (run spawn post (snd (spawn c (world_after spawn pre w)))),
              snd (run spawn post (snd (spawn c (world_after spawn pre w)))))).
Proof.
  intros Hpre. split.
  - intros e Hc.
    destruct (throw_ends_trace pre post c w e Hpre Hc) as [Hs Ht].
    split; assumption.
  - intros output code p Hc Hin.
    unfold segment. rewrite Hc. repeat split.
    + right. right. apply in_or_app. left.
      apply in_map_iff. exists (ChError p). split; [reflexivity|exact Hin].
    + intros [Habs|[Habs|Habs]]; try discriminate.
      apply in_app_or in Habs. destruct Habs as [Habs|[Habs|[]]];
        [|discriminate].
      apply in_map_iff in Habs. destruct Habs as [ev [Hev _]].
      destruct ev; discriminate.
    + rewrite (run_app pre (c :: post) w Hpre). simpl.
      destruct (spawn c (world_after spawn pre w)) as [r w']. simpl in Hc.
      subst r. cbn [snd]. destruct (run spawn post w') as [tr st]. cbn [fst snd].
      rewrite <- !app_assoc. reflexivity.
Qed.

End PipelineFacts.

(** ** [PackageManager.release] *)

Section ReleaseFacts.
Import Pipeline Release.
Variable World : Type.
Variable spawn : string -> World -> SpawnResult * World.

(** A pipeline of at least one command emits nothing before its first
    suspension, so the listeners of [release] hear all of it. *)
Lemma heard_cons (c : string) (rest : list string) (w : World) :
  heard (fst (run spawn (c :: rest) w)) = emits (fst (run spawn (c :: rest) w)).
Proof.
  destruct (run_head World spawn c rest w) as [t Ht]. rewrite Ht. reflexivity.
Qed.

Lemma stderr_fold (evs : list Emit) (o : Outcome) :
  stderr (fold_left listen evs o) = stderr o ++ error_values evs.
Proof.
  revert o. induction evs as [|ev evs IH]; intros o; simpl.
  - symmetry. apply app_nil_r.
  - rewrite IH. destruct ev; simpl; [reflexivity..|].
    rewrite <- app_assoc. reflexivity.
Qed.

Lemma promise_fold (evs : list Emit) (o : Outcome) :
  promise (fold_left listen evs o) =
    match promise o with
    | Pending =>
        match filter is_exit evs with [] => Pending | _ => Resolved end
    | s => s
    end.
Proof.
  revert o. induction evs as [|ev evs IH]; intros o; simpl.
  - destruct (promise o); reflexivity.
  - rewrite IH. destruct ev; simpl; try reflexivity.
    destruct (promise o); reflexivity.
Qed.

Lemma error_values_app (l1 l2 : list Emit) :
  error_values (l1 ++ l2) = error_values l1 ++ error_values l2.
Proof.
  induction l1 as [|ev l1 IH]; simpl; [reflexivity|].
  destruct ev; simpl; rewrite IH; reflexivity.
Qed.

Lemma error_values_none (l : list Emit) :
  filter is_error l = [] -> error_values l = [].
Proof.
  induction l as [|ev l IH]; simpl; [reflexivity|].
  destruct ev; simpl; auto; discriminate.
Qed.

(** The promise of [release] is resolved exactly when the list of
    commands is not empty and every command exits; it is never rejected
    by the pipeline. *)
Lemma release_promise (commands : list string) (w : World) :
  promise (release_pipeline spawn commands w) =
    match commands with
    | [] => Pending
    | _ => if all_exit spawn commands w then Resolved else Pending
    end.
Proof.
  unfold release_pipeline. rewrite promise_fold. simpl.
  destruct commands as [|c rest]; [reflexivity|].
  rewrite heard_cons.
  pose proof (exit_count_run World spawn (c :: rest) w) as H.
  unfold exit_count in H.
  destruct (filter is_exit (emits (fst (run spawn (c :: rest) w))));
    destruct (all_exit spawn (c :: rest) w); simpl in H; try discriminate;
    reflexivity.
Qed.

(** When the pipeline ends in ['error'], [release] writes the value to
    the error stream and leaves its promise pending: [resolve] is only
    ever called by the ['exit'] listener. *)
Lemma release_error_never_settles
    (pre post : list string) (c : string) (w : World) (e : Payload) :
  all_exit spawn pre w = true ->
  fst (spawn c (world_after spawn pre w)) = SpawnThrows e ->
  stderr (release_pipeline spawn (pre ++ c :: post) w) = [e]
  /\ promise (release_pipeline spawn (pre ++ c :: post) w) = Pending.
Proof.
  intros Hpre Hc. split.
  - unfold release_pipeline. rewrite stderr_fold. simpl.
    assert (Hh : heard (fst (run spawn (pre ++ c :: post) w))
                 = emits (fst (run spawn (pre ++ c :: post) w))).
    { destruct pre; simpl app; apply heard_cons. }
    rewrite Hh, (run_throw World spawn pre post c w e Hpre Hc). cbn [fst].
    rewrite emits_app, error_values_app.
    rewrite (error_values_none _ (segments_no_error World spawn pre w)).
    reflexivity.
  - rewrite release_promise.
    assert (Hf : all_exit spawn (pre ++ c :: post) w = false).
    { rewrite all_exit_app, Hpre. simpl.
      destruct (spawn c (world_after spawn pre w)) as [r w']. simpl in Hc.
      subst r. reflexivity. }
    rewrite Hf. destruct pre; reflexivity.
Qed.

End ReleaseFacts.

(** *** Concrete runs *)

Section PipelineRuns.
Import Pipeline Release Samples.

(** C1, at a failing pipeline.  With [release: [build, missing, publish]],
    where the spawn of [missing] throws, [release] writes the value thrown
    to the error stream, and its promise is neither resolved nor rejected:
    it stays pending. *)
Theorem release_failure_leaves_promise_pending :
  release spawn (prepared (RcArray ["build"; "missing"; "publish"])) 0
  = Piped {| stdout := ["build"]; stderr := ["ENOENT"]; promise := Pending |}.
Proof. reflexivity. Qed.

(** The same configuration without the failing command resolves. *)
Example release_success_resolves :
  release spawn (prepared (RcArray ["build"; "publish"])) 0
  = Piped {| stdout := ["build"; "publish"]; stderr := [];
             promise := Resolved |}.
Proof. reflexivity. Qed.

(** With an empty list of commands the pipeline emits ['exit'] before
    [pipeline] returns, that is before [release] has attached a listener:
    the promise stays pending. *)
Example release_empty_list_stays_pending :
  release spawn (prepared (RcArray [])) 0 = Piped fresh.
Proof. reflexivity. Qed.

(** C2, as stated, fails: the error stream of [noisy] fires, and the
    pipeline still spawns [build] and ends with ['exit']; the value is
    forwarded as ['data'] and no ['error'] is emitted. *)
Lemma error_stream_is_not_terminal :
  fst (spawn "noisy" 0) = Spawned [ChData "out"; ChError "oops"] (Some 0%Z)
  /\ spawned (fst (run spawn ["noisy"; "build"] 0)) = ["noisy"; "build"]
  /\ emits (fst (run spawn ["noisy"; "build"] 0))
     = [EmitData "out"; EmitData "oops"; EmitData "build"; EmitExit]
  /\ ~ (spawned (fst (run spawn ["noisy"; "build"] 0)) = ["noisy"]
        /\ terminal (fst (run spawn ["noisy"; "build"] 0))
           = Some (EmitError "oops")).
Proof.
  repeat split; try reflexivity.
  intros [H _]. vm_compute in H. discriminate.
Qed.

(** An instance: [missing] throws after [build]; [noisy] fires its error
    stream after [build]. *)
Lemma throw_is_terminal_error_stream_is_data_witness :
  (spawned (fst (run spawn (["build"] ++ "missing" :: ["publish"]) 0))
     = ["build"] ++ ["missing"]
   /\ terminal (fst (run spawn (["build"] ++ "missing" :: ["publish"]) 0))
      = Some (EmitError "ENOENT"))
  /\ In (AEmit (EmitData "oops"))
        (segment spawn "noisy" (world_after spawn ["build"] 0)).
Proof.
  split.
  - apply (proj1 (throw_is_terminal_error_stream_is_data
                    World spawn ["build"] ["publish"] "missing" 0 eq_refl)
                 "ENOENT" eq_refl).
  - apply (proj2 (throw_is_terminal_error_stream_is_data
                    World spawn ["build"] ["publish"] "noisy" 0 eq_refl)
                 [ChData "out"; ChError "oops"] 0%Z "oops" eq_refl).
    simpl. right. left. reflexivity.
Defined.

(** An instance: the third of four commands throws. *)
Lemma spawn_error_stops_pipeline_witness :
  spawned (fst (run spawn (["build"; "test"] ++ "missing" :: ["publish"]) 0))
    = ["build"; "test"] ++ ["missing"]
  /\ filter is_error
       (emits (fst (run spawn (["build"; "test"] ++ "missing" :: ["publish"]) 0)))
     = [EmitError "ENOENT"]
  /\ exit_count
       (fst (run spawn (["build"; "test"] ++ "missing" :: ["publish"]) 0)) = 0
  /\ terminal (fst (run spawn (["build"; "test"] ++ "missing" :: ["publish"]) 0))
     = Some (EmitError "ENOENT")
  /\ snd (run spawn (["build"; "test"] ++ "missing" :: ["publish"]) 0) = Settled.
Proof.
  apply (spawn_error_stops_pipeline World spawn
           ["build"; "test"] ["publish"] "missing" 0 "ENOENT"); reflexivity.
Defined.

(** An instance: three commands that exit, the second with code 1. *)
Lemma all_exit_pipeline_witness :
  all_exit spawn ["build"; "false"; "publish"] 0 = true
  /\ spawned (fst (run spawn ["build"; "false"; "publish"] 0))
     = ["build"; "false"; "publish"]
  /\ exit_count (fst (run spawn ["build"; "false"; "publish"] 0)) = 1
  /\ error_count (fst (run spawn ["build"; "false"; "publish"] 0)) = 0.
Proof.
  split; [reflexivity|].
  pose proof (all_exit_pipeline World spawn
                ["build"; "false"; "publish"] 0 eq_refl) as H.
  destruct H as (_ & Hs & He & Hr & _).
  repeat split; assumption.
Defined.

(** An instance: [false] exits with code 1 and [publish] still runs. *)
Lemma nonzero_exit_is_progress_witness :
  (1 <> 0)%Z
  /\ spawned (fst (run spawn ([] ++ "false" :: ["publish"]) 0))
     = [] ++ "false" :: ["publish"]
  /\ terminal (fst (run spawn ([] ++ "false" :: ["publish"]) 0)) = Some EmitExit
  /\ error_count (fst (run spawn ([] ++ "false" :: ["publish"]) 0)) = 0.
Proof.
  split; [discriminate|].
  apply (proj2 (nonzero_exit_is_progress World spawn
                  [] ["publish"] "false" 0 1 [] 1%Z eq_refl eq_refl
                  ltac:(discriminate)) eq_refl).
Defined.

End PipelineRuns.

(** ** [sortPackageJSON] *)

Section PackageJsonFacts.
Import PackageJson.

Lemma get_In (o : Obj) (k : string) (v : Value) :
  get o k = Some v -> In (k, v) o.
Proof.
  induction o as [|[k0 v0] o IH]; simpl; [discriminate|].
  destruct (String.eqb_spec k0 k) as [->|Hne].
  - intros [= ->]. left. reflexivity.
  - intros H. right. apply IH. exact H.
Qed.

Lemma In_get (o : Obj) (k : string) (v : Value) :
  NoDup (keys o) -> In (k, v) o -> get o k = Some v.
Proof.
  induction o as [|[k0 v0] o IH]; simpl; [intros _ []|].
  intros Hnd [Heq|Hin].
  - injection Heq as -> ->. rewrite String.eqb_refl. reflexivity.
  - inversion Hnd as [|? ? Hk0 Hnd']. subst.
    destruct (String.eqb_spec k0 k) as [->|Hne].
    + exfalso. apply Hk0. change k with (fst (k, v)). apply in_map. exact Hin.
    + apply IH; assumption.
Qed.

Lemma get_None (o : Obj) (k : string) :
  get o k = None <-> ~ In k (keys o).
Proof.
  induction o as [|[k0 v0] o IH]; simpl.
  - split; [intros _ []|reflexivity].
  - destruct (String.eqb_spec k0 k) as [->|Hne].
    + split; [discriminate|]. intros H. exfalso. apply H. left. reflexivity.
    + rewrite IH. split.
      * intros H [Heq|Hin]; [congruence|auto].
      * intros H Hin. apply H. right. exact Hin.
Qed.

(** For an ordinary key an assignment keeps the place of an existing
    property and puts a new one last. *)
Lemma set_ordinary (o : Obj) (k : string) (v : Value) :
  ordinary k = true -> set o k v = put o k v.
Proof.
  unfold ordinary, set. intros H. apply andb_true_iff in H.
  destruct H as [Hp Hi]. apply negb_true_iff in Hp. rewrite Hp.
  destruct (index_of k); [discriminate|]. destruct (get o k); reflexivity.
Qed.

Lemma put_fresh (o : Obj) (k : string) (v : Value) :
  ~ In k (keys o) -> put o k v = o ++ [(k, v)].
Proof.
  induction o as [|[k0 v0] o IH]; simpl; [reflexivity|].
  intros H. destruct (String.eqb_spec k0 k) as [->|Hne].
  - exfalso. apply H. left. reflexivity.
  - rewrite IH; [reflexivity|]. intros Hin. apply H. right. exact Hin.
Qed.

(** Assigning to an ordinary key the object does not have appends it. *)
Lemma set_fresh (o : Obj) (k : string) (v : Value) :
  ordinary k = true -> ~ In k (keys o) -> set o k v = o ++ [(k, v)].
Proof.
  intros Hk H. rewrite (set_ordinary o k v Hk). apply put_fresh. exact H.
Qed.

Lemma all_ordinary_In (o : Obj) (k : string) :
  all_ordinary o = true -> In k (keys o) -> ordinary k = true.
Proof.
  unfold all_ordinary. intros H Hin.
  apply (proj1 (forallb_forall ordinary (keys o)) H k Hin).
Qed.

Lemma all_ordinary_incl (o1 o2 : Obj) :
  incl (keys o1) (keys o2) -> all_ordinary o2 = true -> all_ordinary o1 = true.
Proof.
  unfold all_ordinary. intros Hincl H. apply forallb_forall.
  intros k Hin. apply (proj1 (forallb_forall ordinary (keys o2)) H k).
  apply Hincl. exact Hin.
Qed.

Lemma keys_filter_incl (f : string * Value -> bool) (o : Obj) :
  incl (keys (filter f o)) (keys o).
Proof.
  intros k Hin. unfold keys in *. apply in_map_iff in Hin.
  destruct Hin as [e [<- Hin]]. apply in_map. apply filter_In in Hin. apply Hin.
Qed.

Lemma delete_filter (o : Obj) (k : string) :
  delete o k = filter (fun e => negb (String.eqb (fst e) k)) o.
Proof.
  induction o as [|[k0 v0] o IH]; simpl; [reflexivity|].
  destruct (String.eqb k0 k); simpl; rewrite IH; reflexivity.
Qed.

Lemma keys_filter_NoDup (f : string * Value -> bool) (o : Obj) :
  NoDup (keys o) -> NoDup (keys (filter f o)).
Proof.
  induction o as [|[k0 v0] o IH]; simpl; [constructor|].
  intros Hnd. inversion Hnd as [|? ? Hk0 Hnd']. subst.
  destruct (f (k0, v0)); simpl; [|auto].
  constructor; [|auto].
  intros Hin. apply Hk0. unfold keys in *.
  apply in_map_iff in Hin. destruct Hin as [[k v] [Hk Hin]].
  simpl in Hk. subst k. apply filter_In in Hin.
  change k0 with (fst (k0, v)). apply in_map. apply Hin.
Qed.

Lemma get_delete_other (o : Obj) (k k' : string) :
  k' <> k -> get (delete o k) k' = get o k'.
Proof.
  intros Hne. induction o as [|[k0 v0] o IH]; simpl; [reflexivity|].
  destruct (String.eqb_spec k0 k) as [->|Hne0].
  - rewrite IH. destruct (String.eqb_spec k k'); [congruence|reflexivity].
  - simpl. rewrite IH. reflexivity.
Qed.

Lemma is_field_In (fs : list string) (k : string) :
  is_field fs k = true <-> In k fs.
Proof.
  unfold is_field. rewrite existsb_exists. split.
  - intros [x [Hin Heq]]. apply String.eqb_eq in Heq. subst. exact Hin.
  - intros Hin. exists k. split; [exact Hin|apply String.eqb_refl].
Qed.

Lemma picked_delete (fs : list string) (pkg : Obj) (k : string) :
  ~ In k fs -> picked fs (delete pkg k) = picked fs pkg.
Proof.
  intros Hk. unfold picked. induction fs as [|k' fs IH]; simpl; [reflexivity|].
  rewrite get_delete_other by (intros ->; apply Hk; left; reflexivity).
  rewrite IH; [reflexivity|]. intros Hin. apply Hk. right. exact Hin.
Qed.

Lemma keys_picked (fs : list string) (pkg : Obj) (k : string) :
  In k (keys (picked fs pkg)) -> In k fs.
Proof.
  unfold picked, keys. intros Hin. apply in_map_iff in Hin.
  destruct Hin as [[k0 v0] [Hk Hin]]. simpl in Hk. subst k0.
  apply in_flat_map in Hin. destruct Hin as [key [Hkey Hin]].
  destruct (get pkg key) as [v|]; [|destruct Hin].
  destruct (truthy v); [|destruct Hin].
  destruct Hin as [[= -> _]|[]]. exact Hkey.
Qed.

Lemma filter_twice {A} (f g : A -> bool) (l : list A) :
  filter f (filter g l) = filter (fun x => g x && f x) l.
Proof.
  induction l as [|x l IH]; simpl; [reflexivity|].
  destruct (g x); simpl; [destruct (f x)|]; rewrite IH; reflexivity.
Qed.

Lemma remaining_delete (fs : list string) (pkg : Obj) (k : string) (v : Value) :
  NoDup (keys pkg) -> get pkg k = Some v -> truthy v = true ->
  remaining fs (delete pkg k) = remaining (k :: fs) pkg.
Proof.
  intros Hpkg Hget Htr. rewrite delete_filter. unfold remaining.
  rewrite filter_twice. apply filter_ext_in. intros [k0 v0] Hin. simpl.
  destruct (String.eqb_spec k0 k) as [->|Hne]; simpl; [|reflexivity].
  rewrite (In_get pkg k v0 Hpkg Hin) in Hget. injection Hget as ->.
  rewrite Htr. reflexivity.
Qed.

(** The first loop, for any list of fields without repetition. *)
Lemma move_fields_spec (fs : list string) :
  NoDup fs ->
  forallb ordinary fs = true ->
  forall pkg acc : Obj,
    NoDup (keys pkg) ->
    (forall k, In k (keys acc) -> ~ In k fs) ->
    move_fields fs pkg acc = (remaining fs pkg, acc ++ picked fs pkg).
Proof.
  induction 1 as [|k fs Hk Hnd IH]; intros Hord pkg acc Hpkg Hacc; simpl.
  - unfold remaining. simpl. rewrite app_nil_r. f_equal.
    induction pkg as [|e pkg IHp]; simpl; [reflexivity|].
    inversion Hpkg; subst. rewrite <- IHp at 1 by assumption. reflexivity.
  - assert (Hfresh : ~ In k (keys acc)).
    { intros Hin. apply (Hacc k Hin). left. reflexivity. }
    simpl in Hord. apply andb_true_iff in Hord. destruct Hord as [Hok Hord].
    specialize (IH Hord).
    destruct (get pkg k) as [v|] eqn:Hget; [destruct (truthy v) eqn:Htr|].
    + rewrite IH.
      * rewrite (set_fresh acc k v Hok Hfresh), <- app_assoc. simpl.
        rewrite (picked_delete fs pkg k Hk). f_equal.
        apply (remaining_delete fs pkg k v Hpkg Hget Htr).
      * rewrite delete_filter. apply keys_filter_NoDup. exact Hpkg.
      * intros k' Hin Hfs. unfold keys in Hin.
        rewrite (set_fresh acc k v Hok Hfresh), map_app in Hin.
        apply in_app_or in Hin. destruct Hin as [Hin|[<-|[]]].
        -- apply (Hacc k' Hin). right. exact Hfs.
        -- apply Hk. exact Hfs.
    + rewrite IH; [|assumption|].
      * f_equal. unfold remaining. apply filter_ext_in.
        intros [k0 v0] Hin. simpl.
        destruct (String.eqb_spec k0 k) as [->|Hne]; simpl; [|reflexivity].
        rewrite (In_get pkg k v0 Hpkg Hin) in Hget. injection Hget as ->.
        rewrite Htr, andb_false_r. reflexivity.
      * intros k' Hin Hfs. apply (Hacc k' Hin). right. exact Hfs.
    + rewrite IH; [|assumption|].
      * f_equal. unfold remaining. apply filter_ext_in.
        intros [k0 v0] Hin. simpl.
        destruct (String.eqb_spec k0 k) as [->|Hne]; simpl; [|reflexivity].
        rewrite (In_get pkg k v0 Hpkg Hin) in Hget. discriminate.
      * intros k' Hin Hfs. apply (Hacc k' Hin). right. exact Hfs.
Qed.

(** The second loop appends what is left, in its order. *)
Lemma copy_fold (suf pre acc : Obj) :
  NoDup (keys (pre ++ suf)) ->
  all_ordinary suf = true ->
  (forall k, In k (keys suf) -> ~ In k (keys acc)) ->
  fold_left
    (fun a key =>
       match get (pre ++ suf) key with
       | Some v => set a key v
       | None => a
       end)
    (keys suf) acc
  = acc ++ suf.
Proof.
  revert pre acc.
  induction suf as [|[k v] suf IH]; intros pre acc Hnd Hord Hdis; simpl.
  - symmetry. apply app_nil_r.
  - unfold all_ordinary in Hord. simpl in Hord.
    apply andb_true_iff in Hord. destruct Hord as [Hok Hord].
    rewrite (In_get (pre ++ (k, v) :: suf) k v Hnd)
      by (apply in_or_app; right; left; reflexivity).
    rewrite set_fresh by (try exact Hok; apply Hdis; left; reflexivity).
    assert (Hk : ~ In k (keys suf)).
    { unfold keys in Hnd. rewrite map_app in Hnd.
      apply NoDup_app_remove_l in Hnd. inversion Hnd; assumption. }
    replace (pre ++ (k, v) :: suf) with ((pre ++ [(k, v)]) ++ suf) in *
      by (rewrite <- app_assoc; reflexivity).
    rewrite IH; [rewrite <- app_assoc; reflexivity|exact Hnd|exact Hord|].
    intros k' Hin Hacc. unfold keys in Hacc. rewrite map_app in Hacc.
    apply in_app_or in Hacc. destruct Hacc as [Hacc|[<-|[]]].
    + apply (Hdis k'); [right; exact Hin|exact Hacc].
    + apply Hk. exact Hin.
Qed.

Lemma copy_rest_spec (rest acc : Obj) :
  NoDup (keys rest) ->
  all_ordinary rest = true ->
  (forall k, In k (keys rest) -> ~ In k (keys acc)) ->
  copy_rest rest acc = acc ++ rest.
Proof.
  intros Hnd Hord Hdis. unfold copy_rest.
  destruct (Nat.eqb_spec (length (keys rest)) 0) as [H0|_].
  - destruct rest; [symmetry; apply app_nil_r|discriminate].
  - apply (copy_fold rest [] acc Hnd Hord Hdis).
Qed.

Lemma In_picked (fs : list string) (pkg : Obj) (k : string) (v : Value) :
  In (k, v) (picked fs pkg) <->
  In k fs /\ get pkg k = Some v /\ truthy v = true.
Proof.
  unfold picked. rewrite in_flat_map. split.
  - intros [key [Hkey Hin]].
    destruct (get pkg key) as [v0|] eqn:Hget; [|destruct Hin].
    destruct (truthy v0) eqn:Htr; [|destruct Hin].
    destruct Hin as [[= -> ->]|[]]. auto.
  - intros (Hk & Hget & Htr). exists k. split; [exact Hk|].
    rewrite Hget, Htr. left. reflexivity.
Qed.

Lemma keys_picked_filter (fs : list string) (pkg : Obj) :
  keys (picked fs pkg) = filter (truthy_at pkg) fs.
Proof.
  unfold picked, truthy_at, keys.
  induction fs as [|k fs IH]; simpl; [reflexivity|].
  rewrite map_app, IH.
  destruct (get pkg k) as [v|]; [destruct (truthy v)|]; reflexivity.
Qed.

Lemma picked_remaining_disjoint (fs : list string) (pkg : Obj) (k : string) :
  NoDup (keys pkg) ->
  In k (keys (remaining fs pkg)) -> ~ In k (keys (picked fs pkg)).
Proof.
  intros Hnd Hrem Hpick. unfold keys in Hrem, Hpick.
  apply in_map_iff in Hrem. destruct Hrem as [[k1 v1] [Hk1 Hrem]].
  apply in_map_iff in Hpick. destruct Hpick as [[k2 v2] [Hk2 Hpick]].
  simpl in *. subst k1 k2.
  apply In_picked in Hpick. destruct Hpick as (Hfs & Hget & Htr).
  unfold remaining in Hrem. apply filter_In in Hrem. simpl in Hrem.
  destruct Hrem as [Hin Hneg].
  rewrite (In_get pkg k v1 Hnd Hin) in Hget. injection Hget as ->.
  apply is_field_In in Hfs. rewrite Hfs, Htr in Hneg. discriminate.
Qed.

(** The whole function, for any list of fields without repetition, on
    ordinary keys. *)
Lemma sort_with_spec (fs : list string) (pkg : Obj) :
  NoDup fs -> forallb ordinary fs = true ->
  NoDup (keys pkg) -> all_ordinary pkg = true ->
  sort_with fs pkg = picked fs pkg ++ remaining fs pkg.
Proof.
  intros Hfs Hofs Hpkg Hord. unfold sort_with.
  rewrite (move_fields_spec fs Hfs Hofs pkg [] Hpkg) by (intros k []).
  simpl. apply copy_rest_spec.
  - apply keys_filter_NoDup. exact Hpkg.
  - apply (all_ordinary_incl _ pkg); [apply keys_filter_incl|exact Hord].
  - intros k. apply picked_remaining_disjoint. exact Hpkg.
Qed.

Lemma sort_with_In (fs : list string) (pkg : Obj) (e : string * Value) :
  NoDup (keys pkg) ->
  In e (picked fs pkg ++ remaining fs pkg) <-> In e pkg.
Proof.
  intros Hpkg. destruct e as [k v]. rewrite in_app_iff, In_picked.
  unfold remaining. rewrite filter_In. simpl. split.
  - intros [(_ & Hget & _)|[Hin _]]; [apply get_In; exact Hget|exact Hin].
  - intros Hin.
    destruct (is_field fs k && truthy v) eqn:Hb.
    + left. apply andb_true_iff in Hb. destruct Hb as [Hf Ht].
      apply is_field_In in Hf. auto using In_get.
    + right. auto.
Qed.

Lemma sort_with_keys_NoDup (fs : list string) (pkg : Obj) :
  NoDup fs -> NoDup (keys pkg) ->
  NoDup (keys (picked fs pkg ++ remaining fs pkg)).
Proof.
  intros Hfs Hpkg. unfold keys at 1. rewrite map_app. apply NoDup_app.
  - fold (keys (picked fs pkg)). rewrite keys_picked_filter.
    apply NoDup_filter. exact Hfs.
  - apply keys_filter_NoDup. exact Hpkg.
  - intros k Hp Hr. apply (picked_remaining_disjoint fs pkg k Hpkg Hr Hp).
Qed.

Lemma fields_NoDup : NoDup fields.
Proof.
  replace fields with (nodup string_dec fields) by (vm_compute; reflexivity).
  apply NoDup_nodup.
Qed.

(** No recognised field is an array index or [__proto__]. *)
Lemma fields_ordinary : forallb ordinary fields = true.
Proof. vm_compute. reflexivity. Qed.

(** C10, as amended.  For an object whose keys are ordinary (none is an
    array index, none is [__proto__]), the result holds the key-value
    pairs of the input, all of them and no other, each key once.  It
    starts with the fields whose value is truthy, in the order of the
    field list; all other entries follow in the order they had in the
    input, and these include the fields whose value is falsy. *)
Theorem sortPackageJSON_reorders (pkg : Obj) :
  NoDup (keys pkg) ->
  all_ordinary pkg = true ->
  sortPackageJSON pkg = picked fields pkg ++ remaining fields pkg
  /\ Permutation (sortPackageJSON pkg) pkg
  /\ NoDup (keys (sortPackageJSON pkg))
  /\ (forall key, get (sortPackageJSON pkg) key = get pkg key).
Proof.
  intros Hpkg Hord. unfold sortPackageJSON.
  rewrite (sort_with_spec fields pkg fields_NoDup fields_ordinary Hpkg Hord).
  pose proof (sort_with_keys_NoDup fields pkg fields_NoDup Hpkg) as Hnd.
  split; [reflexivity|]. split; [|split; [exact Hnd|]].
  - apply NoDup_Permutation.
    + apply (NoDup_map_inv _ _ Hnd).
    + apply (NoDup_map_inv _ _ Hpkg).
    + intros e. apply sort_with_In. exact Hpkg.
  - intros key. destruct (get pkg key) as [v|] eqn:Hget.
    + apply In_get; [exact Hnd|]. apply sort_with_In; [exact Hpkg|].
      apply get_In. exact Hget.
    + apply get_None. apply get_None in Hget. intros Hin. apply Hget.
      unfold keys in *. apply in_map_iff in Hin.
      destruct Hin as [e [<- Hin]]. apply in_map.
      apply (sort_with_In fields pkg e Hpkg). exact Hin.
Qed.

End PackageJsonFacts.

(** An instance: the sample package. *)
Lemma sortPackageJSON_reorders_witness :
  NoDup (PackageJson.keys Samples.pkg)
  /\ PackageJson.all_ordinary Samples.pkg = true
  /\ PackageJson.sortPackageJSON Samples.pkg
     = PackageJson.picked PackageJson.fields Samples.pkg
       ++ PackageJson.remaining PackageJson.fields Samples.pkg
  /\ Permutation (PackageJson.sortPackageJSON Samples.pkg) Samples.pkg.
Proof.
  assert (H : NoDup (PackageJson.keys Samples.pkg)).
  { replace (PackageJson.keys Samples.pkg)
      with (nodup string_dec (PackageJson.keys Samples.pkg))
      by (vm_compute; reflexivity).
    apply NoDup_nodup. }
  split; [exact H|]. split; [reflexivity|].
  destruct (sortPackageJSON_reorders Samples.pkg H eq_refl) as (Heq & Hperm & _).
  split; assumption.
Defined.

(** C10, as stated, fails on the order: [private] is a recognised field,
    its value [false] is falsy, and it ends up behind [zeta], which is no
    field. *)
Lemma falsy_field_is_not_first :
  PackageJson.sortPackageJSON Samples.pkg
    = [ ("name", PackageJson.VStr "gpm");
        ("version", PackageJson.VStr "1.0.0");
        ("zeta", PackageJson.VNum 1);
        ("private", PackageJson.VBool false) ]
  /\ PackageJson.recognised_first PackageJson.fields Samples.pkg
    = [ ("name", PackageJson.VStr "gpm");
        ("version", PackageJson.VStr "1.0.0");
        ("private", PackageJson.VBool false);
        ("zeta", PackageJson.VNum 1) ]
  /\ PackageJson.sortPackageJSON Samples.pkg
     <> PackageJson.recognised_first PackageJson.fields Samples.pkg.
Proof.
  split; [vm_compute; reflexivity|].
  split; [vm_compute; reflexivity|].
  vm_compute. discriminate.
Qed.

(** Outside the ordinary keys the result is not a reordering of this
    kind: keys that are array indices stay ahead of every field, in
    numeric order. *)
Example index_keys_stay_first :
  PackageJson.keys (PackageJson.sortPackageJSON Samples.numbered)
  = ["2"; "10"; "name"; "zeta"].
Proof. vm_compute. reflexivity. Qed.

(** And an own [__proto__] key of the input is no key of the result: the
    assignment of line 260 reaches the setter of the prototype. *)
Example proto_key_is_dropped :
  PackageJson.keys (PackageJson.sortPackageJSON Samples.polluted)
  = ["name"; "zeta"].
Proof. vm_compute. reflexivity. Qed.

(** ** [DevTools.watch]: the missing command *)

Section WatchFacts.
Import Watch.

(** With an options object that carries no command and a prepared config
    without a [watch] entry, [watch] throws 'Watch no command found'
    before it logs, registers the watcher or calls the runner. *)
Lemma watch_no_command_is_configuration_error
    (cwd : string) (cfg : DevToolsConfig) (o : WatchOptions) :
  isReady cfg = true ->
  command o = None ->
  watch_entry cfg = None ->
  watch cwd cfg (Some o) = ([], Some WatchNoCommand).
Proof.
  intros Hready Hcmd Hcfg. unfold watch, opt, get_watch.
  rewrite Hcmd, Hready, Hcfg. reflexivity.
Qed.

(** Whatever the error, a call that throws has done nothing to the
    outside: no watcher is registered and the runner is not called. *)
Lemma watch_throws_before_effects
    (cwd : string) (cfg : DevToolsConfig) (options : option WatchOptions)
    (e : Error) :
  snd (watch cwd cfg options) = Some e -> fst (watch cwd cfg options) = [].
Proof.
  unfold watch.
  destruct (match opt command options with
            | Some c => inr (Some c)
            | None => get_watch cfg
            end) as [e0|cmd]; [reflexivity|].
  destruct options as [o|]; [|reflexivity].
  destruct cmd as [c|]; [|reflexivity].
  destruct (command_truthy c); [discriminate|reflexivity].
Qed.

(** C9, as amended.  Called without options, [watch] throws, having
    done nothing: on a prepared config the TypeError of reading
    [options.ignore], whether a [watch] entry is configured or not; on a
    config that was not prepared the 'config is not ready' of
    [config.get], which line 164 calls first.  On no config does such a
    call end in 'Watch no command found'. *)
Theorem watch_without_options_is_type_error
    (cwd : string) (cfg : DevToolsConfig) :
  watch cwd cfg None
    = ([], Some (if isReady cfg then TypeError_ignore else ConfigNotReady))
  /\ (isReady cfg = true -> watch cwd cfg None = ([], Some TypeError_ignore))
  /\ (isReady cfg = false -> watch cwd cfg None = ([], Some ConfigNotReady))
  /\ snd (watch cwd cfg None) <> Some WatchNoCommand.
Proof.
  unfold watch, opt, get_watch.
  destruct (isReady cfg); simpl; repeat split; try discriminate; reflexivity.
Qed.

End WatchFacts.

(** C8, at the call without options.  No command is given and none is
    configured, and the error is the TypeError of line 167, not
    'Watch no command found'; nothing was done to the outside. *)
Theorem watch_no_options_no_command :
  Watch.watch "/repo" Samples.no_default None = ([], Some Watch.TypeError_ignore).
Proof. reflexivity. Qed.

(** The same call with an options object ends in the configuration error. *)
Example watch_empty_options_no_command :
  Watch.watch "/repo" Samples.no_default (Some Samples.no_command)
  = ([], Some Watch.WatchNoCommand).
Proof. reflexivity. Qed.

(** C9, as stated, fails on a config that was not prepared: the call
    without options throws 'config is not ready', which is not the
    TypeError of reading [options.ignore]. *)
Lemma unprepared_watch_is_no_type_error :
  Watch.watch "/repo" Samples.unprepared None = ([], Some Watch.ConfigNotReady)
  /\ snd (Watch.watch "/repo" Samples.unprepared None)
     <> Some Watch.TypeError_ignore.
Proof. split; [reflexivity|discriminate]. Qed.

(** An instance: a prepared config without a [watch] entry. *)
Lemma watch_without_options_is_type_error_witness :
  Watch.watch "/repo" Samples.no_default None = ([], Some Watch.TypeError_ignore)
  /\ snd (Watch.watch "/repo" Samples.no_default None) <> Some Watch.WatchNoCommand.
Proof.
  destruct (watch_without_options_is_type_error "/repo" Samples.no_default)
    as (_ & H1 & _ & H2).
  split; [exact (H1 eq_refl)|exact H2].
Defined.

(** ** The debounced handler *)

Section SessionFacts.
Import Watch.
Variable cmd : Command.

Lemma run_handles (first : bool) (g : nat) :
  handles (fst (run cmd first g)) = map fst (procs cmd g).
Proof. unfold run, procs. destruct cmd; reflexivity. Qed.

Lemma run_events (first : bool) (g : nat) :
  snd (run cmd first g)
  = banner first ++ map (fun hc => EvSpawn (fst hc) (snd hc)) (procs cmd g).
Proof. unfold run, procs. destruct cmd; reflexivity. Qed.

Lemma spawn_from_gen (g i : nat) (cs : list string) :
  Forall (fun hc => fst (fst hc) = g) (spawn_from g i cs).
Proof.
  revert i. induction cs as [|c cs IH]; intros i; simpl; constructor; auto.
Qed.

Lemma procs_gen (g : nat) : Forall (fun hc => fst (fst hc) = g) (procs cmd g).
Proof.
  unfold procs. destruct cmd.
  - repeat constructor.
  - apply spawn_from_gen.
Qed.

Lemma retired_cons (l : list Ev) (e : Ev) (h : Handle) :
  retired l h -> retired (e :: l) h.
Proof. intros [H1 H2]. split; right; assumption. Qed.

(** The log after the spawns of a job execution. *)
Lemma spawned_spawns (ps : list (Handle * string)) (l : list Ev) :
  spawned (rev (map (fun hc => EvSpawn (fst hc) (snd hc)) ps) ++ l)
  = rev (map fst ps) ++ spawned l.
Proof.
  revert l. induction ps as [|p ps IH]; intros l; simpl; [reflexivity|].
  rewrite <- !app_assoc. simpl. rewrite IH. reflexivity.
Qed.

Lemma live_spawns (ps : list (Handle * string)) (l : list Ev) :
  live (rev (map (fun hc => EvSpawn (fst hc) (snd hc)) ps) ++ l)
  = rev (map fst ps) ++ live l.
Proof.
  revert l. induction ps as [|p ps IH]; intros l; simpl; [reflexivity|].
  rewrite <- !app_assoc. simpl. rewrite IH. reflexivity.
Qed.

Lemma kill_before_spawns (g : nat) (ps : list (Handle * string)) (l : list Ev) :
  Forall (fun hc => fst (fst hc) = g) ps ->
  kill_before_spawn l ->
  (forall h', In h' (spawned l) -> S (fst h') = g -> retired l h') ->
  kill_before_spawn (rev (map (fun hc => EvSpawn (fst hc) (snd hc)) ps) ++ l).
Proof.
  intros Hps. revert l. induction Hps as [|p ps Hp _ IH]; intros l Hl Hret; simpl.
  - exact Hl.
  - rewrite <- app_assoc. simpl. apply IH.
    + simpl. split; [|exact Hl].
      intros h' Hin Hg. apply Hret; [exact Hin|exact (eq_trans Hg Hp)].
    + simpl. intros h' [<-|Hin] Hg.
      * exfalso. clear - Hg Hp. unfold Handle in *. lia.
      * apply retired_cons. apply Hret; assumption.
Qed.

Lemma never_overlap_spawns (g : nat) (ps : list (Handle * string)) (l : list Ev) :
  Forall (fun hc => fst (fst hc) = g) ps ->
  never_overlap l ->
  (forall h, In h (live l) -> fst h = g) ->
  never_overlap (rev (map (fun hc => EvSpawn (fst hc) (snd hc)) ps) ++ l).
Proof.
  intros Hps. revert l. induction Hps as [|p ps Hp _ IH]; intros l Hl Hg; simpl.
  - exact Hl.
  - rewrite <- app_assoc. simpl.
    assert (Hg' : forall h, In h (live (EvSpawn (fst p) (snd p) :: l)) -> fst h = g).
    { simpl. intros h [<-|Hin]; [exact Hp|apply Hg; exact Hin]. }
    apply IH; [|exact Hg'].
    split; [|exact Hl].
    intros h1 h2 H1 H2. rewrite (Hg' h1 H1), (Hg' h2 H2). reflexivity.
Qed.

Lemma log_banner (first : bool) (l : list Ev) :
  spawned (rev (banner first) ++ l) = spawned l
  /\ live (rev (banner first) ++ l) = live l
  /\ (kill_before_spawn l -> kill_before_spawn (rev (banner first) ++ l))
  /\ (forall h, retired l h -> retired (rev (banner first) ++ l) h).
Proof.
  destruct first; simpl; (split; [reflexivity|]); (split; [reflexivity|]);
    split; auto.
  intros h. apply retired_cons.
Qed.

(** Calling [run] when every process of the latest job execution is
    retired keeps the order. *)
Lemma start_run_ordered (first : bool) (g : nat) (l : list Ev) :
  kill_before_spawn l ->
  (forall h, In h (spawned l) -> fst h < g) ->
  (forall h, In h (spawned l) -> S (fst h) = g -> retired l h) ->
  kill_before_spawn (rev (snd (run cmd first g)) ++ l)
  /\ (forall h, In h (spawned (rev (snd (run cmd first g)) ++ l)) -> fst h < S g)
  /\ (forall h, In h (spawned (rev (snd (run cmd first g)) ++ l)) ->
                S (fst h) = S g -> In h (handles (fst (run cmd first g)))).
Proof.
  intros Hk Hlt Hret. rewrite run_events, run_handles, rev_app_distr, <- app_assoc.
  destruct (log_banner first l) as (Hs & _ & Hkb & Hrb).
  pose proof (procs_gen g) as Hg.
  split; [|split].
  - apply (kill_before_spawns g); [exact Hg|apply Hkb; exact Hk|].
    rewrite Hs. intros h Hin Hgen. apply Hrb. apply Hret; assumption.
  - intros h. rewrite spawned_spawns, Hs, in_app_iff, <- in_rev.
    intros [Hin|Hin].
    + apply in_map_iff in Hin. destruct Hin as [hc [<- Hin]].
      rewrite Forall_forall in Hg. pose proof (Hg hc Hin) as Hgen.
      simpl in Hgen. unfold Handle in *. lia.
    + specialize (Hlt h Hin). lia.
  - intros h. rewrite spawned_spawns, Hs, in_app_iff, <- in_rev.
    intros [Hin|Hin] Hgen; [exact Hin|].
    specialize (Hlt h Hin). lia.
Qed.

(** Calling [run] when no process is alive starts one generation. *)
Lemma start_run_exclusive (first : bool) (g : nat) (l : list Ev) :
  never_overlap l ->
  live l = [] ->
  never_overlap (rev (snd (run cmd first g)) ++ l)
  /\ (forall h, In h (live (rev (snd (run cmd first g)) ++ l)) -> S (fst h) = S g)
  /\ incl (live (rev (snd (run cmd first g)) ++ l)) (handles (fst (run cmd first g))).
Proof.
  intros Hn Hl. rewrite run_events, run_handles, rev_app_distr, <- app_assoc.
  destruct (log_banner first l) as (_ & Hlive & _ & _).
  pose proof (procs_gen g) as Hg.
  assert (Hnb : never_overlap (rev (banner first) ++ l)).
  { destruct first; simpl; [exact Hn|]. split; [|exact Hn].
    rewrite Hl. intros h1 h2 []. }
  split; [|split].
  - apply (never_overlap_spawns g); [exact Hg|exact Hnb|].
    rewrite Hlive, Hl. intros h [].
  - intros h. rewrite live_spawns, Hlive, Hl, app_nil_r, <- in_rev.
    intros Hin. apply in_map_iff in Hin. destruct Hin as [hc [<- Hin]].
    rewrite Forall_forall in Hg. pose proof (Hg hc Hin) as Hgen.
    simpl in Hgen. unfold Handle in *. lia.
  - intros h. rewrite live_spawns, Hlive, Hl, app_nil_r, <- in_rev. auto.
Qed.

Lemma fire_proceed (first : bool) (st : State) :
  fire cmd first st =
    {| child := child (snd (proceed cmd (handles (child st)) first st));
       tasks := tasks (snd (proceed cmd (handles (child st)) first st))
                  ++ [fst (proceed cmd (handles (child st)) first st)];
       runs := runs (snd (proceed cmd (handles (child st)) first st));
       log := log (snd (proceed cmd (handles (child st)) first st)) |}.
Proof.
  unfold fire. destruct (child st); cbn [handles];
    destruct (proceed cmd _ first st); reflexivity.
Qed.

Lemma proceed_frame (hs : list Handle) (first : bool) (st : State) :
  child (snd (proceed cmd hs first st)) = child st
  /\ tasks (snd (proceed cmd hs first st)) = tasks st.
Proof.
  unfold proceed. destruct hs as [|h rest]; [|split; reflexivity].
  destruct (run cmd first (runs st)). split; reflexivity.
Qed.

(** From the kill loop on, the handler keeps the order, provided the
    processes of the latest job execution that are not retired yet are
    all in the list it is about to kill. *)
Lemma proceed_ordered (hs : list Handle) (first : bool) (st : State) (c : Child) :
  kill_before_spawn (log st) ->
  (forall h, In h (spawned (log st)) -> fst h < runs st) ->
  (forall h, In h (spawned (log st)) -> S (fst h) = runs st ->
             retired (log st) h \/ In h hs) ->
  ordered {| child := c;
             tasks := [fst (proceed cmd hs first st)];
             runs := runs (snd (proceed cmd hs first st));
             log := log (snd (proceed cmd hs first st)) |}.
Proof.
  intros Hk Hlt Hacc. unfold proceed. destruct hs as [|h rest].
  - pose proof (start_run_ordered first (runs st) (log st) Hk Hlt) as Hrun.
    destruct (run cmd first (runs st)) as [result evs]. cbn [fst snd] in *.
    destruct Hrun as (H1 & H2 & H3).
    { intros h Hin Hg. destruct (Hacc h Hin Hg) as [Hr|[]]. exact Hr. }
    unfold ordered, accounted. cbn. auto.
  - unfold ordered, accounted. cbn. split; [|split; [|split]].
    + split; [exact I|exact Hk].
    + exact Hlt.
    + left. reflexivity.
    + intros h' Hin Hg. destruct (Hacc h' Hin Hg) as [Hr|[Heq|Hin']].
      * left. apply retired_cons. exact Hr.
      * right. left. symmetry. exact Heq.
      * right. right. exact Hin'.
Qed.

Lemma one_generation_latest (g : nat) (hs : list Handle) :
  (forall h, In h hs -> S (fst h) = g) -> one_generation hs.
Proof.
  intros H h1 h2 H1 H2. specialize (H h1 H1) as E1. specialize (H h2 H2) as E2.
  lia.
Qed.

(** From the kill loop on, the handler never has two generations alive,
    provided the processes alive are all in the list it is about to
    kill. *)
Lemma proceed_exclusive (hs : list Handle) (first : bool) (st : State) (c : Child) :
  never_overlap (log st) ->
  (forall h, In h (live (log st)) -> S (fst h) = runs st) ->
  incl (live (log st)) hs ->
  exclusive {| child := c;
               tasks := [fst (proceed cmd hs first st)];
               runs := runs (snd (proceed cmd hs first st));
               log := log (snd (proceed cmd hs first st)) |}.
Proof.
  intros Hn Hg Hincl. unfold proceed. destruct hs as [|h rest].
  - assert (Hl : live (log st) = []).
    { destruct (live (log st)) as [|h l]; [reflexivity|].
      destruct (Hincl h (or_introl eq_refl)). }
    pose proof (start_run_exclusive first (runs st) (log st) Hn Hl) as Hrun.
    destruct (run cmd first (runs st)) as [result evs]. cbn [fst snd] in *.
    unfold exclusive, held. cbn. exact Hrun.
  - unfold exclusive, held. cbn. split; [|split].
    + split; [|exact Hn]. apply (one_generation_latest (runs st)). exact Hg.
    + exact Hg.
    + exact Hincl.
Qed.

Lemma nth_error_single {A} (x : A) (i : nat) :
  nth_error [x] i = match i with 0 => Some x | S _ => None end.
Proof. destruct i as [|[|i]]; reflexivity. Qed.

Lemma resume_kill (i : nat) (st : State) (h : Handle) (rest : list Handle)
    (first : bool) :
  nth_error (tasks st) i = Some (AwaitKill h rest first) ->
  resume cmd i st =
    {| child := child (snd (proceed cmd rest first
                  {| child := child st; tasks := tasks st; runs := runs st;
                     log := EvKilled h :: log st |}));
       tasks := replace_nth i
                  (fst (proceed cmd rest first
                     {| child := child st; tasks := tasks st; runs := runs st;
                        log := EvKilled h :: log st |}))
                  (tasks st);
       runs := runs (snd (proceed cmd rest first
                  {| child := child st; tasks := tasks st; runs := runs st;
                     log := EvKilled h :: log st |}));
       log := log (snd (proceed cmd rest first
                  {| child := child st; tasks := tasks st; runs := runs st;
                     log := EvKilled h :: log st |})) |}.
Proof.
  intros H. unfold resume. rewrite H.
  match goal with |- context [proceed cmd rest first ?s] =>
    destruct (proceed_frame rest first s) as [_ Ht];
    destruct (proceed cmd rest first s) as [task st'] end.
  cbn [fst snd] in *. rewrite Ht. reflexivity.
Qed.

Lemma resume_run (i : nat) (st : State) (result : Child) :
  nth_error (tasks st) i = Some (AwaitRun result) ->
  resume cmd i st =
    {| child := result; tasks := remove_nth i (tasks st);
       runs := runs st; log := log st |}.
Proof. intros H. unfold resume. rewrite H. reflexivity. Qed.

Lemma resume_none (i : nat) (st : State) :
  nth_error (tasks st) i = None -> resume cmd i st = st.
Proof. intros H. unfold resume. rewrite H. reflexivity. Qed.

(** One tick of a serialized session keeps the order. *)
Lemma step_ordered (t : Tick) (st : State) :
  ordered st -> fire_when_idle t st = true -> ordered (step cmd t st).
Proof.
  intros (Hk & Hlt & Hacc) Hidle. unfold accounted in Hacc.
  remember (tasks st) as ts eqn:Hts in Hacc.
  destruct t as [first|i|h]; simpl.
  - (* the handler is called *)
    unfold fire_when_idle in Hidle. rewrite <- Hts in Hidle.
    destruct ts as [|t0 ts]; [|discriminate].
    rewrite fire_proceed.
    destruct (proceed_frame (handles (child st)) first st) as [Hc Ht].
    rewrite Ht, <- Hts. simpl app.
    apply proceed_ordered; auto.
  - (* a parked invocation goes on *)
    destruct ts as [|t0 [|t1 ts]]; [| |destruct t0; contradiction].
    + rewrite resume_none by (rewrite <- Hts; destruct i; reflexivity).
      unfold ordered, accounted. rewrite <- Hts. auto.
    + destruct i as [|i].
      * destruct t0 as [h rest first|result].
        -- destruct Hacc as [Hkill Hacc].
           rewrite (resume_kill 0 st h rest first)
             by (rewrite <- Hts; reflexivity).
           rewrite <- Hts. cbn [replace_nth firstn skipn app].
           apply proceed_ordered; cbn [log runs].
           ++ split; [exact I|exact Hk].
           ++ exact Hlt.
           ++ intros h' Hin Hg. destruct (Hacc h' Hin Hg) as [Hr|[->|Hin']].
              ** left. apply retired_cons. exact Hr.
              ** left. split; [right; exact Hkill|left; reflexivity].
              ** right. exact Hin'.
        -- rewrite (resume_run 0 st result) by (rewrite <- Hts; reflexivity).
           rewrite <- Hts. unfold ordered, accounted. cbn. auto.
      * rewrite resume_none
          by (rewrite <- Hts; destruct i; reflexivity).
        unfold ordered, accounted. rewrite <- Hts. auto.
  - (* a process terminates *)
    unfold ordered, accounted. cbn. rewrite <- Hts.
    split; [split; [exact I|exact Hk]|]. split; [exact Hlt|].
    destruct ts as [|[h0 rest first|result] [|t1 ts]]; auto.
    destruct Hacc as [Hkill Hacc]. split; [right; exact Hkill|].
    intros h' Hin Hg. destruct (Hacc h' Hin Hg) as [Hr|Hor]; [|auto].
    left. apply retired_cons. exact Hr.
Qed.

Lemma handle_eqb_eq (a b : Handle) : handle_eqb a b = true <-> a = b.
Proof.
  destruct a as [a1 a2], b as [b1 b2]. unfold handle_eqb. simpl.
  rewrite andb_true_iff, !Nat.eqb_eq. split.
  - intros [-> ->]. reflexivity.
  - intros [= -> ->]. auto.
Qed.

Lemma not_alive (h : Handle) (l : list Handle) :
  negb (existsb (handle_eqb h) l) = true -> ~ In h l.
Proof.
  intros H Hin. apply negb_true_iff in H.
  assert (Ht : existsb (handle_eqb h) l = true).
  { apply existsb_exists. exists h. split; [exact Hin|].
    apply handle_eqb_eq. reflexivity. }
  congruence.
Qed.

(** One tick of a serialized session whose kills are awaited until the
    process is gone never leaves two generations alive. *)
Lemma step_exclusive (t : Tick) (st : State) :
  exclusive st ->
  fire_when_idle t st = true ->
  resume_after_exit t st = true ->
  exclusive (step cmd t st).
Proof.
  intros (Hn & Hg & Hheld) Hidle Hexit. unfold held in Hheld.
  remember (tasks st) as ts eqn:Hts in Hheld.
  destruct t as [first|i|h]; simpl.
  - (* the handler is called *)
    unfold fire_when_idle in Hidle. rewrite <- Hts in Hidle.
    destruct ts as [|t0 ts]; [|discriminate].
    rewrite fire_proceed.
    destruct (proceed_frame (handles (child st)) first st) as [Hc Ht].
    rewrite Ht, <- Hts. simpl app.
    apply proceed_exclusive; auto.
  - (* a parked invocation goes on *)
    destruct ts as [|t0 [|t1 ts]]; [| |destruct t0; contradiction].
    + rewrite resume_none by (rewrite <- Hts; destruct i; reflexivity).
      unfold exclusive, held. rewrite <- Hts. auto.
    + destruct i as [|i].
      * destruct t0 as [h rest first|result].
        -- unfold resume_after_exit in Hexit. rewrite <- Hts in Hexit.
           simpl in Hexit. apply not_alive in Hexit.
           rewrite (resume_kill 0 st h rest first)
             by (rewrite <- Hts; reflexivity).
           rewrite <- Hts. cbn [replace_nth firstn skipn app].
           apply proceed_exclusive; cbn [log runs live].
           ++ split; [|exact Hn].
              apply (one_generation_latest (runs st)). exact Hg.
           ++ exact Hg.
           ++ intros h' Hin. destruct (Hheld h' Hin) as [<-|Hin'];
                [contradiction|exact Hin'].
        -- rewrite (resume_run 0 st result) by (rewrite <- Hts; reflexivity).
           rewrite <- Hts. unfold exclusive, held. cbn. auto.
      * rewrite resume_none
          by (rewrite <- Hts; destruct i; reflexivity).
        unfold exclusive, held. rewrite <- Hts. auto.
  - (* a process terminates *)
    assert (Hsub : forall h', In h'
              (filter (fun h' => negb (handle_eqb h' h)) (live (log st))) ->
              In h' (live (log st))).
    { intros h' Hin. apply filter_In in Hin. apply Hin. }
    unfold exclusive, held. cbn. rewrite <- Hts.
    split; [split; [|exact Hn]|split].
    + apply (one_generation_latest (runs st)). auto.
    + auto.
    + destruct ts as [|[h0 rest first|result] [|t1 ts]]; auto;
        intros h' Hin; apply Hheld; auto.
Qed.

Lemma exec_ordered (sched : list Tick) (st : State) :
  ordered st -> serialized cmd sched st = true -> ordered (exec cmd sched st).
Proof.
  revert st. induction sched as [|t sched IH]; intros st Hord Hser; simpl.
  - exact Hord.
  - unfold serialized in Hser. simpl in Hser.
    apply andb_true_iff in Hser. destruct Hser as [Ht Hser].
    apply IH; [apply step_ordered; assumption|exact Hser].
Qed.

Lemma exec_exclusive (sched : list Tick) (st : State) :
  exclusive st ->
  serialized cmd sched st = true ->
  kills_awaited cmd sched st = true ->
  exclusive (exec cmd sched st).
Proof.
  revert st. induction sched as [|t sched IH]; intros st Hex Hser Hkill; simpl.
  - exact Hex.
  - unfold serialized in Hser. unfold kills_awaited in Hkill.
    simpl in Hser, Hkill.
    apply andb_true_iff in Hser. destruct Hser as [Ht Hser].
    apply andb_true_iff in Hkill. destruct Hkill as [Hk Hkill].
    apply IH; [apply step_exclusive; assumption|exact Hser|exact Hkill].
Qed.

Lemma init_ordered : ordered init.
Proof. unfold ordered, accounted. simpl. repeat split; intros h []. Qed.

Lemma init_exclusive : exclusive init.
Proof. unfold exclusive, held. simpl. repeat split; intros h []. Qed.

(** C3, as amended.  In a session whose handler is never called while an
    earlier invocation is still parked on an [await], the processes of a
    job execution are spawned only after [kill()] has been called on
    every process of the execution before it and the [await] of that
    call has resumed.  If moreover an awaited [kill()] only resumes once
    its process has terminated, processes of two job executions are at
    no time alive together. *)
Theorem serialized_runs_do_not_overlap (sched : list Tick) :
  serialized cmd sched init = true ->
  kill_before_spawn (log (exec cmd sched init))
  /\ (kills_awaited cmd sched init = true ->
      never_overlap (log (exec cmd sched init))).
Proof.
  intros Hser. split.
  - apply (exec_ordered sched init init_ordered Hser).
  - intros Hkill.
    apply (exec_exclusive sched init init_exclusive Hser Hkill).
Qed.

End SessionFacts.

(** An instance: the schedule [calm]. *)
Lemma serialized_runs_do_not_overlap_witness :
  Watch.kill_before_spawn
    (Watch.log (Watch.exec Samples.serve Samples.calm Watch.init))
  /\ Watch.never_overlap
       (Watch.log (Watch.exec Samples.serve Samples.calm Watch.init)).
Proof.
  destruct (serialized_runs_do_not_overlap Samples.serve Samples.calm eq_refl)
    as [H1 H2].
  split; [exact H1|exact (H2 eq_refl)].
Defined.

(** C3, as stated, fails.  In [signal_only] the handler is never called
    while an invocation is parked, [kill()] is called on the process of the
    first run and awaited, and the second run is spawned while the first
    process is still alive.  In [slow_kill] every awaited kill resumes
    after its process is gone, but the handler is called a second time
    while the first invocation awaits the kill: both invocations go on to
    spawn, and the third job execution starts although the process of the
    second was never sent a kill. *)
Lemma runs_can_overlap :
  (Watch.serialized Samples.serve Samples.signal_only Watch.init = true
   /\ Watch.log (Watch.exec Samples.serve Samples.signal_only Watch.init)
      = [ Watch.EvSpawn (1, 0) "serve"; Watch.EvBanner;
          Watch.EvKilled (0, 0); Watch.EvKill (0, 0);
          Watch.EvSpawn (0, 0) "serve" ]
   /\ ~ Watch.never_overlap
          (Watch.log (Watch.exec Samples.serve Samples.signal_only Watch.init)))
  /\ (Watch.kills_awaited Samples.serve Samples.slow_kill Watch.init = true
      /\ Watch.log (Watch.exec Samples.serve Samples.slow_kill Watch.init)
         = [ Watch.EvSpawn (2, 0) "serve"; Watch.EvBanner; Watch.EvKilled (0, 0);
             Watch.EvSpawn (1, 0) "serve"; Watch.EvBanner; Watch.EvKilled (0, 0);
             Watch.EvExit (0, 0); Watch.EvKill (0, 0); Watch.EvKill (0, 0);
             Watch.EvSpawn (0, 0) "serve" ]
      /\ ~ Watch.kill_before_spawn
             (Watch.log (Watch.exec Samples.serve Samples.slow_kill Watch.init))
      /\ ~ Watch.never_overlap
             (Watch.log (Watch.exec Samples.serve Samples.slow_kill Watch.init))).
Proof.
  split; [|split; [|split; [|split]]]; try reflexivity.
  - split; [reflexivity|]. split; [reflexivity|].
    intros [H _]. specialize (H (1, 0) (0, 0)). simpl in H.
    assert (E : 1 = 0) by (apply H; auto). discriminate.
  - intros [H _]. simpl in H.
    destruct (H (1, 0)) as [Hkill _]; [auto|reflexivity|].
    simpl in Hkill.
    repeat (destruct Hkill as [Hkill|Hkill]; [discriminate|]).
    exact Hkill.
  - intros [H _]. specialize (H (2, 0) (1, 0)). simpl in H.
    assert (E : 2 = 1) by (apply H; auto). discriminate.
Qed.

(** ** Debounced re-runs *)

Section DebounceFacts.
Import Watch Debounce.
Variable cmd : Command.

Lemma due_app (ts1 ts2 : list Task) : due (ts1 ++ ts2) = due ts1 + due ts2.
Proof.
  induction ts1 as [|t ts1 IH]; simpl; [reflexivity|].
  destruct t; simpl; rewrite IH; reflexivity.
Qed.

Lemma due_split (ts : list Task) (i : nat) (t : Task) :
  nth_error ts i = Some t ->
  due ts = due (firstn i ts) + due [t] + due (skipn (S i) ts).
Proof.
  revert i. induction ts as [|t0 ts IH]; intros i H.
  - destruct i; discriminate.
  - destruct i as [|i]; simpl in H.
    + injection H as ->. simpl. destruct t; simpl; lia.
    + specialize (IH i H). simpl firstn. simpl skipn in *.
      destruct t0; simpl in *; lia.
Qed.

(** [proceed] either parks on a kill or starts a job execution. *)
Lemma proceed_budget (hs : list Handle) (first : bool) (st : State) :
  runs (snd (proceed cmd hs first st)) + due [fst (proceed cmd hs first st)]
  = S (runs st).
Proof.
  unfold proceed. destruct hs as [|h rest]; simpl.
  - destruct (run cmd first (runs st)). simpl. lia.
  - lia.
Qed.

(** A call of the handler adds one to the job executions started or
    still to start; nothing else does. *)
Lemma step_budget (t : Tick) (st : State) :
  runs (step cmd t st) + due (tasks (step cmd t st))
  = runs st + due (tasks st) + length (fires [t]).
Proof.
  destruct t as [first|i|h]; simpl.
  - rewrite fire_proceed. cbn [runs tasks].
    destruct (proceed_frame cmd (handles (child st)) first st) as [_ Ht].
    rewrite Ht, due_app.
    pose proof (proceed_budget (handles (child st)) first st). lia.
  - destruct (nth_error (tasks st) i) as [[h rest first|result]|] eqn:Hn.
    + rewrite (resume_kill cmd i st h rest first Hn). cbn [runs tasks].
      unfold replace_nth. rewrite due_app.
      change (?x :: skipn (S i) (tasks st)) with ([x] ++ skipn (S i) (tasks st)).
      rewrite due_app.
      pose proof (due_split (tasks st) i _ Hn) as Hsplit.
      match goal with |- context [proceed cmd rest first ?s] =>
        pose proof (proceed_budget rest first s) as Hb end.
      cbn [runs] in Hb.
      change (due [AwaitKill h rest first]) with 1 in Hsplit. lia.
    + rewrite (resume_run cmd i st result Hn). cbn [runs tasks].
      unfold remove_nth. rewrite due_app.
      pose proof (due_split (tasks st) i _ Hn) as Hsplit.
      change (due [AwaitRun result]) with 0 in Hsplit. lia.
    + rewrite (resume_none cmd i st Hn). lia.
  - lia.
Qed.

Lemma exec_budget (sched : list Tick) (st : State) :
  runs (exec cmd sched st) + due (tasks (exec cmd sched st))
  = runs st + due (tasks st) + length (fires sched).
Proof.
  revert st. induction sched as [|t sched IH]; intros st; simpl.
  - lia.
  - fold (exec cmd sched (step cmd t st)). rewrite IH.
    pose proof (step_budget t st) as Hs.
    destruct t; simpl in *; lia.
Qed.

Lemma last_cons {A} (x d : A) (l : list A) : last (x :: l) d = last l x.
Proof.
  revert x d. induction l as [|y l IH]; intros x d; [reflexivity|].
  change (last (x :: y :: l) d) with (last (y :: l) d).
  rewrite (IH y d), (IH y x). reflexivity.
Qed.

(** During a burst no timer comes due: the timer left armed is that of
    the last call. *)
Lemma calls_burst (later : list (nat * bool)) (t : nat) (a : bool)
    (done : list (nat * bool)) :
  burst t later = true ->
  calls later {| pending := Some (t + wait, a); fired := done |}
  = {| pending := Some (fst (last later (t, a)) + wait, snd (last later (t, a)));
       fired := done |}.
Proof.
  revert t a. induction later as [|[t' a'] later IH]; intros t a Hb.
  - reflexivity.
  - simpl in Hb. apply andb_true_iff in Hb. destruct Hb as [Hb Hrest].
    apply andb_true_iff in Hb. destruct Hb as [_ Hlt].
    apply Nat.ltb_lt in Hlt.
    rewrite last_cons. unfold calls in *. simpl fold_left.
    unfold call at 2. unfold advance. cbn [pending fired fst snd].
    destruct (Nat.leb_spec (t + wait) t') as [Hle|_]; [lia|].
    cbn [fired]. apply IH. exact Hrest.
Qed.

(** C7.  A burst of calls of the debounced runner, each made before the
    timer of the call before it is due, calls the handler once, [wait]
    milliseconds after the last call of the burst and with its argument,
    and not before; and whatever else happens in the session meanwhile,
    the handler calls that a schedule takes from the burst start at most
    one job execution. *)
Theorem burst_starts_one_run
    (t0 : nat) (a0 : bool) (later : list (nat * bool)) (until : nat)
    (sched : list Tick) (st : State) :
  burst t0 later = true ->
  fires sched = map snd (debounced ((t0, a0) :: later) until) ->
  debounced ((t0, a0) :: later) until
    = (if (fst (last later (t0, a0)) + wait <=? until)%nat
       then [(fst (last later (t0, a0)) + wait, snd (last later (t0, a0)))]
       else [])
  /\ length (fires sched) <= 1
  /\ runs (exec cmd sched st) <= runs st + due (tasks st) + 1.
Proof.
  intros Hb Hf.
  assert (Hd : debounced ((t0, a0) :: later) until
    = (if (fst (last later (t0, a0)) + wait <=? until)%nat
       then [(fst (last later (t0, a0)) + wait, snd (last later (t0, a0)))]
       else [])).
  { unfold debounced, calls. simpl fold_left.
    change (call t0 a0 idle) with {| pending := Some (t0 + wait, a0); fired := [] |}.
    fold (calls later {| pending := Some (t0 + wait, a0); fired := [] |}).
    rewrite (calls_burst later t0 a0 [] Hb). unfold advance. cbn [pending fired].
    destruct (fst (last later (t0, a0)) + wait <=? until)%nat; reflexivity. }
  assert (Hlen : length (fires sched) <= 1).
  { rewrite Hf, Hd, length_map.
    destruct (fst (last later (t0, a0)) + wait <=? until)%nat; simpl; lia. }
  split; [exact Hd|]. split; [exact Hlen|].
  pose proof (exec_budget sched st). lia.
Qed.

End DebounceFacts.

(** An instance: four changes within 1.9 s of a running session lead to
    one handler call at 2899 ms and to one more job execution. *)
Lemma burst_starts_one_run_witness :
  Debounce.debounced [(0, false); (300, false); (900, false); (1899, false)] 5000
    = [(2899, false)]
  /\ Watch.runs
       (Watch.exec Samples.serve
          [Watch.Fire false; Watch.Resume 0; Watch.Resume 0]
          (Watch.exec Samples.serve [Watch.Fire true; Watch.Resume 0] Watch.init))
     <= 1 + 0 + 1.
Proof.
  destruct (burst_starts_one_run Samples.serve 0 false
              [(300, false); (900, false); (1899, false)] 5000
              [Watch.Fire false; Watch.Resume 0; Watch.Resume 0]
              (Watch.exec Samples.serve [Watch.Fire true; Watch.Resume 0] Watch.init)
              eq_refl eq_refl) as (Hd & _ & Hr).
  split; [exact Hd|exact Hr].
Defined.

(* ================================================================== *)
(** * Part III: further properties of the same code *)
(* ================================================================== *)

(** ** The pipeline as a stream of events *)

Section StreamFacts.
Import Pipeline Stream Release.
Variable World : Type.
Variable spawn : string -> World -> SpawnResult * World.

Lemma ending_cases (cs : list string) (w : World) :
  ending spawn cs w = []
  \/ ending spawn cs w = [EmitExit]
  \/ exists e, ending spawn cs w = [EmitError e].
Proof.
  revert w. induction cs as [|c cs IH]; intros w; simpl; [auto|].
  destruct (spawn c w) as [[e|output [code|]] w']; eauto.
Qed.

Lemma emits_run (cs : list string) (w : World) :
  emits (fst (run spawn cs w))
  = map EmitData (forwarded spawn cs w) ++ ending spawn cs w.
Proof.
  revert w. induction cs as [|c cs IH]; intros w; simpl; [reflexivity|].
  destruct (spawn c w) as [[e|output [code|]] w'].
  - reflexivity.
  - specialize (IH w'). destruct (run spawn cs w') as [tr st]. simpl in *.
    rewrite emits_app, emits_forward. simpl. rewrite IH.
    rewrite map_app, map_map, <- app_assoc. reflexivity.
  - simpl. rewrite emits_forward, map_map, app_nil_r. reflexivity.
Qed.

Lemma status_run (cs : list string) (w : World) :
  snd (run spawn cs w)
  = match ending spawn cs w with [] => Suspended | _ => Settled end.
Proof.
  revert w. induction cs as [|c cs IH]; intros w; simpl; [reflexivity|].
  destruct (spawn c w) as [[e|output [code|]] w']; try reflexivity.
  specialize (IH w'). destruct (run spawn cs w') as [tr st]. exact IH.
Qed.

Lemma filter_data (f : Emit -> bool) (l : list Payload) :
  (forall p, f (EmitData p) = false) -> filter f (map EmitData l) = [].
Proof.
  intros H. induction l as [|p l IH]; simpl; [reflexivity|].
  rewrite H. exact IH.
Qed.

(** X1.  Whatever the commands and whatever they do, a pipeline emits at
    most one event that is not ['data'], and nothing after it: its events
    are the chunks of the children, in order, followed by one ['exit'] or
    one ['error'] when [run()] comes to its end, and by nothing when it is
    parked for ever on a child. *)
Theorem pipeline_ends_once (commands : list string) (w : World) :
  emits (fst (run spawn commands w))
    = map EmitData (forwarded spawn commands w) ++ ending spawn commands w
  /\ exit_count (fst (run spawn commands w))
     + error_count (fst (run spawn commands w))
     = length (ending spawn commands w)
  /\ length (ending spawn commands w) <= 1
  /\ (snd (run spawn commands w) = Settled
      <-> length (ending spawn commands w) = 1).
Proof.
  split; [apply emits_run|].
  unfold exit_count, error_count. rewrite emits_run, !filter_app.
  rewrite !filter_data by reflexivity. simpl. rewrite status_run.
  destruct (ending_cases commands w) as [E|[E|[e E]]]; rewrite E; simpl;
    repeat split; auto; discriminate.
Qed.

(** X2.  A child that never exits blocks the pipeline: the commands after
    it are never spawned, and neither ['exit'] nor ['error'] is ever
    emitted; what the child printed has been forwarded. *)
Theorem never_exiting_child_blocks_pipeline
    (pre post : list string) (c : string) (w : World)
    (output : list ChildEvent) :
  all_exit spawn pre w = true ->
  fst (spawn c (world_after spawn pre w)) = Spawned output None ->
  spawned (fst (run spawn (pre ++ c :: post) w)) = pre ++ [c]
  /\ emits (fst (run spawn (pre ++ c :: post) w))
     = emits (segments spawn pre w) ++ map EmitData (map payload output)
  /\ exit_count (fst (run spawn (pre ++ c :: post) w)) = 0
  /\ error_count (fst (run spawn (pre ++ c :: post) w)) = 0
  /\ snd (run spawn (pre ++ c :: post) w) = Suspended.
Proof.
  intros Hpre Hc.
  assert (Hrun : run spawn (pre ++ c :: post) w
    = (segments spawn pre w ++ ASpawn c :: AAwait :: map forward output,
       Suspended)).
  { rewrite (run_app World spawn pre (c :: post) w Hpre). simpl.
    destruct (spawn c (world_after spawn pre w)) as [r w']. simpl in Hc.
    subst r. reflexivity. }
  rewrite Hrun. cbn [fst snd].
  assert (Hem : emits (segments spawn pre w
                         ++ ASpawn c :: AAwait :: map forward output)
                = emits (segments spawn pre w)
                    ++ map EmitData (map payload output)).
  { rewrite emits_app. simpl. rewrite emits_forward, map_map. reflexivity. }
  split; [|split; [exact Hem|split; [|split; [|reflexivity]]]].
  - rewrite spawned_app. simpl. rewrite spawned_forward.
    rewrite (spawned_segments World spawn pre w Hpre). reflexivity.
  - unfold exit_count. rewrite Hem, filter_app.
    rewrite (segments_no_exit World spawn), filter_data by reflexivity.
    reflexivity.
  - unfold error_count. rewrite Hem, filter_app.
    rewrite (segments_no_error World spawn), filter_data by reflexivity.
    reflexivity.
Qed.







Section SinkFacts.
Import Sink.
Variable writable : Payload -> bool.





End SinkFacts.

End StreamFacts.

(** ** [sortPackageJSON] once more *)

Section SortFacts.
Import PackageJson Bump.

Lemma sort_with_get (fs : list string) (pkg : Obj) (key : string) :
  NoDup fs -> forallb ordinary fs = true ->
  NoDup (keys pkg) -> all_ordinary pkg = true ->
  get (sort_with fs pkg) key = get pkg key.
Proof.
  intros Hfs Hofs Hpkg Hord. rewrite (sort_with_spec fs pkg Hfs Hofs Hpkg Hord).
  pose proof (sort_with_keys_NoDup fs pkg Hfs Hpkg) as Hnd.
  destruct (get pkg key) as [v|] eqn:Hget.
  - apply In_get; [exact Hnd|]. apply sort_with_In; [exact Hpkg|].
    apply get_In. exact Hget.
  - apply get_None. apply get_None in Hget. intros Hin. apply Hget.
    unfold keys in *. apply in_map_iff in Hin.
    destruct Hin as [e [<- Hin]]. apply in_map.
    apply (sort_with_In fs pkg e Hpkg). exact Hin.
Qed.

Lemma picked_ext (fs : list string) (o1 o2 : Obj) :
  (forall k, get o1 k = get o2 k) -> picked fs o1 = picked fs o2.
Proof.
  intros H. unfold picked. induction fs as [|k fs IH]; simpl; [reflexivity|].
  rewrite H, IH. reflexivity.
Qed.

Lemma picked_all_moved (fs : list string) (pkg : Obj) :
  Forall (fun e => is_field fs (fst e) && truthy (snd e) = true) (picked fs pkg).
Proof.
  apply Forall_forall. intros [k v] Hin. apply In_picked in Hin.
  destruct Hin as (Hk & _ & Htr). simpl.
  apply is_field_In in Hk. rewrite Hk, Htr. reflexivity.
Qed.

Lemma filter_all_false {A} (f : A -> bool) (l : list A) :
  Forall (fun x => f x = false) l -> filter f l = [].
Proof.
  induction 1 as [|x l Hx _ IH]; simpl; [reflexivity|]. rewrite Hx. exact IH.
Qed.

Lemma filter_idem {A} (f : A -> bool) (l : list A) :
  filter f (filter f l) = filter f l.
Proof.
  induction l as [|x l IH]; simpl; [reflexivity|].
  destruct (f x) eqn:E; simpl; rewrite ?E, IH; reflexivity.
Qed.

Lemma sort_with_ordinary (fs : list string) (pkg : Obj) :
  NoDup (keys pkg) -> all_ordinary pkg = true ->
  all_ordinary (picked fs pkg ++ remaining fs pkg) = true.
Proof.
  intros Hpkg Hord. apply (all_ordinary_incl _ pkg); [|exact Hord].
  intros k Hin. unfold keys in *. apply in_map_iff in Hin.
  destruct Hin as [e [<- Hin]]. apply in_map.
  apply (sort_with_In fs pkg e Hpkg). exact Hin.
Qed.

Lemma sort_with_idem (fs : list string) (pkg : Obj) :
  NoDup fs -> forallb ordinary fs = true ->
  NoDup (keys pkg) -> all_ordinary pkg = true ->
  sort_with fs (sort_with fs pkg) = sort_with fs pkg.
Proof.
  intros Hfs Hofs Hpkg Hord.
  assert (Hout : NoDup (keys (sort_with fs pkg))).
  { rewrite (sort_with_spec fs pkg Hfs Hofs Hpkg Hord).
    apply sort_with_keys_NoDup; assumption. }
  assert (Hoo : all_ordinary (sort_with fs pkg) = true).
  { rewrite (sort_with_spec fs pkg Hfs Hofs Hpkg Hord).
    apply sort_with_ordinary; assumption. }
  rewrite (sort_with_spec fs (sort_with fs pkg) Hfs Hofs Hout Hoo).
  rewrite (picked_ext fs (sort_with fs pkg) pkg)
    by (intros k; apply sort_with_get; assumption).
  rewrite (sort_with_spec fs pkg Hfs Hofs Hpkg Hord).
  f_equal. unfold remaining at 1. rewrite filter_app.
  rewrite filter_all_false.
  - simpl. unfold remaining. apply filter_idem.
  - eapply Forall_impl; [|apply picked_all_moved].
    intros e He. cbv beta in *. rewrite He. reflexivity.
Qed.

(** X5.  On ordinary keys (no array index, no [__proto__]) sorting is
    idempotent: a package that went through [sortPackageJSON] comes out
    of a second pass unchanged, and its keys are ordinary again. *)
Theorem sortPackageJSON_idempotent (pkg : Obj) :
  NoDup (keys pkg) ->
  all_ordinary pkg = true ->
  sortPackageJSON (sortPackageJSON pkg) = sortPackageJSON pkg
  /\ all_ordinary (sortPackageJSON pkg) = true.
Proof.
  intros Hpkg Hord. unfold sortPackageJSON. split.
  - apply sort_with_idem;
      [apply fields_NoDup|apply fields_ordinary|exact Hpkg|exact Hord].
  - rewrite (sort_with_spec fields pkg fields_NoDup fields_ordinary Hpkg Hord).
    apply sort_with_ordinary; assumption.
Qed.

Lemma get_filter (f : string * Value -> bool) (o : Obj) (key : string) :
  NoDup (keys o) ->
  get (filter f o) key
  = match get o key with
    | Some v => if f (key, v) then Some v else None
    | None => None
    end.
Proof.
  intros Hnd. destruct (get o key) as [v|] eqn:Hget.
  - destruct (f (key, v)) eqn:Hf.
    + apply In_get; [apply keys_filter_NoDup; exact Hnd|].
      apply filter_In. split; [apply get_In; exact Hget|exact Hf].
    + apply get_None. intros Hin. unfold keys in Hin.
      apply in_map_iff in Hin. destruct Hin as [[k v'] [Hk Hin]].
      simpl in Hk. subst k. apply filter_In in Hin. destruct Hin as [Hin Hf'].
      rewrite (In_get o key v' Hnd Hin) in Hget. injection Hget as ->.
      congruence.
  - apply get_None. apply get_None in Hget. intros Hin. apply Hget.
    unfold keys in *. apply in_map_iff in Hin.
    destruct Hin as [e [<- Hin]]. apply in_map.
    apply filter_In in Hin. apply Hin.
Qed.

Lemma get_remaining (fs : list string) (pkg : Obj) (key : string) :
  NoDup (keys pkg) ->
  get (remaining fs pkg) key
  = if is_field fs key && truthy_at pkg key then None else get pkg key.
Proof.
  intros Hpkg. unfold remaining.
  rewrite (get_filter _ pkg key Hpkg). unfold truthy_at. cbn [fst snd].
  destruct (get pkg key) as [v|]; [|rewrite andb_false_r; reflexivity].
  destruct (is_field fs key && truthy v); reflexivity.
Qed.

(** What an assignment does to a later read, for every key. *)
Lemma get_put (o : Obj) (k k' : string) (v : Value) :
  get (put o k v) k' = if String.eqb k k' then Some v else get o k'.
Proof.
  induction o as [|[k0 v0] o IH]; simpl; [reflexivity|].
  destruct (String.eqb_spec k0 k) as [->|Hk]; simpl.
  - destruct (String.eqb k k'); reflexivity.
  - rewrite IH. destruct (String.eqb_spec k0 k') as [->|Hk'].
    + destruct (String.eqb_spec k k'); [congruence|reflexivity].
    + reflexivity.
Qed.

Lemma get_place (o : Obj) (n : N) (k k' : string) (v : Value) :
  get o k = None ->
  get (place o n k v) k' = if String.eqb k k' then Some v else get o k'.
Proof.
  induction o as [|[k0 v0] o IH]; simpl; [reflexivity|].
  destruct (String.eqb_spec k0 k) as [->|Hk]; [discriminate|]. intros Hnone.
  destruct (index_of k0) as [m|]; [destruct (m <? n)%N|]; simpl;
    try reflexivity.
  rewrite (IH Hnone). destruct (String.eqb_spec k0 k') as [->|Hk']; [|reflexivity].
  destruct (String.eqb_spec k k'); [congruence|reflexivity].
Qed.

Lemma get_set (o : Obj) (k k' : string) (v : Value) :
  get (set o k v) k'
  = if String.eqb k "__proto__" then get o k'
    else if String.eqb k k' then Some v else get o k'.
Proof.
  unfold set. destruct (String.eqb k "__proto__"); [reflexivity|].
  destruct (get o k) as [v0|] eqn:Hget; [apply get_put|].
  destruct (index_of k) as [n|]; [apply get_place; exact Hget|apply get_put].
Qed.

(** The second loop brings in nothing of its own: what the result holds
    under a key was in [_pkg] before, or is an entry of what was left. *)
Lemma copy_rest_get (rest acc : Obj) (key : string) (v : Value) :
  get (copy_rest rest acc) key = Some v ->
  get acc key = Some v \/ In (key, v) rest.
Proof.
  unfold copy_rest.
  destruct (Nat.eqb (length (keys rest)) 0); [intros H; left; exact H|].
  generalize (keys rest) as ks. intros ks. revert acc.
  induction ks as [|k ks IH]; intros acc; simpl; [intros H; left; exact H|].
  intros H. destruct (IH _ H) as [Hacc|Hin]; [|right; exact Hin].
  destruct (get rest k) as [v0|] eqn:Hget; [|left; exact Hacc].
  rewrite get_set in Hacc.
  destruct (String.eqb k "__proto__"); [left; exact Hacc|].
  destruct (String.eqb_spec k key) as [->|_]; [|left; exact Hacc].
  injection Hacc as ->. right. apply get_In. exact Hget.
Qed.

(** Whatever the keys, the result holds under a key nothing but what the
    input held under it. *)
Lemma sort_with_sub (fs : list string) (pkg : Obj) (key : string) (v : Value) :
  NoDup fs -> forallb ordinary fs = true -> NoDup (keys pkg) ->
  get (sort_with fs pkg) key = Some v -> get pkg key = Some v.
Proof.
  intros Hfs Hofs Hpkg. unfold sort_with.
  rewrite (move_fields_spec fs Hfs Hofs pkg [] Hpkg) by (intros k []).
  cbn [app]. intros H. apply copy_rest_get in H. destruct H as [H|H].
  - apply get_In, In_picked in H. apply H.
  - apply In_get; [exact Hpkg|]. unfold remaining in H.
    apply filter_In in H. apply H.
Qed.

Lemma consumes_with (fs : list string) (pkg : Obj) :
  NoDup fs -> forallb ordinary fs = true -> NoDup (keys pkg) ->
  fst (move_fields fs pkg []) = remaining fs pkg
  /\ (forall key,
        get (fst (move_fields fs pkg [])) key
        = if is_field fs key && truthy_at pkg key then None else get pkg key)
  /\ (forall key v, get (sort_with fs pkg) key = Some v ->
        get (fst (move_fields fs pkg [])) key = Some v
        \/ get (fst (move_fields fs pkg [])) key = None).
Proof.
  intros Hfs Hofs Hpkg.
  rewrite (move_fields_spec fs Hfs Hofs pkg [] Hpkg) by (intros k []).
  cbn [fst].
  split; [reflexivity|]. split.
  - intros key. apply get_remaining. exact Hpkg.
  - intros key v Hres. rewrite (get_remaining fs pkg key Hpkg).
    rewrite (sort_with_sub fs pkg key v Hfs Hofs Hpkg Hres).
    destruct (is_field fs key && truthy_at pkg key); auto.
Qed.

(** X6.  [sortPackageJSON] consumes its argument: after the call the
    caller's object has lost every recognised field whose value is truthy,
    and has kept every other entry as it was. *)
Theorem sortPackageJSON_consumes_argument (pkg : Obj) :
  NoDup (keys pkg) ->
  leftover pkg = remaining fields pkg
  /\ (forall key,
        get (leftover pkg) key
        = if is_field fields key && truthy_at pkg key then None
          else get pkg key)
  /\ (forall key v, get (sortPackageJSON pkg) key = Some v ->
        get (leftover pkg) key = Some v \/ get (leftover pkg) key = None).
Proof.
  intros Hpkg.
  exact (consumes_with fields pkg fields_NoDup fields_ordinary Hpkg).
Qed.

Lemma get_set_same (o : Obj) (key : string) (v : Value) :
  ordinary key = true -> get (set o key v) key = Some v.
Proof.
  intros Hk. rewrite (set_ordinary o key v Hk), get_put, String.eqb_refl.
  reflexivity.
Qed.

Lemma get_set_other (o : Obj) (key key' : string) (v : Value) :
  key' <> key -> get (set o key v) key' = get o key'.
Proof.
  intros Hne. rewrite get_set.
  destruct (String.eqb key "__proto__"); [reflexivity|].
  destruct (String.eqb_spec key key'); [congruence|reflexivity].
Qed.

Lemma keys_set (o : Obj) (key : string) (v : Value) :
  ordinary key = true ->
  keys (set o key v) = if is_field (keys o) key then keys o else keys o ++ [key].
Proof.
  intros Hk. rewrite (set_ordinary o key v Hk).
  unfold is_field. induction o as [|[k0 v0] o IH]; simpl; [reflexivity|].
  rewrite (String.eqb_sym key k0).
  destruct (String.eqb k0 key) eqn:E; simpl; [reflexivity|].
  rewrite IH. destruct (existsb (String.eqb key) (keys o)); reflexivity.
Qed.

Lemma set_NoDup (o : Obj) (key : string) (v : Value) :
  ordinary key = true -> NoDup (keys o) -> NoDup (keys (set o key v)).
Proof.
  intros Hk Hnd. rewrite (keys_set o key v Hk).
  destruct (is_field (keys o) key) eqn:E.
  - exact Hnd.
  - apply NoDup_app; [exact Hnd|repeat constructor; intros []|].
    intros k Hin [<-|[]].
    apply is_field_In in Hin. congruence.
Qed.

Lemma picked_app (fs1 fs2 : list string) (pkg : Obj) :
  picked (fs1 ++ fs2) pkg = picked fs1 pkg ++ picked fs2 pkg.
Proof. unfold picked. apply flat_map_app. Qed.

Lemma set_all_ordinary (o : Obj) (key : string) (v : Value) :
  ordinary key = true -> all_ordinary o = true ->
  all_ordinary (set o key v) = true.
Proof.
  intros Hk Ho. unfold all_ordinary. rewrite (keys_set o key v Hk).
  destruct (is_field (keys o) key); [exact Ho|].
  rewrite forallb_app. unfold all_ordinary in Ho. rewrite Ho. simpl.
  rewrite Hk. reflexivity.
Qed.

Lemma bumped_with (fs0 fs1 : list string) (pkg : Obj) (newVersion : string) :
  NoDup (fs0 ++ "version" :: fs1) ->
  forallb ordinary (fs0 ++ "version" :: fs1) = true ->
  NoDup (keys pkg) ->
  all_ordinary pkg = true ->
  let out := sort_with (fs0 ++ "version" :: fs1)
               (set pkg "version" (VStr newVersion)) in
  get out "version" = Some (VStr newVersion)
  /\ (forall key, key <> "version" -> get out key = get pkg key)
  /\ NoDup (keys out)
  /\ (newVersion <> "" ->
      exists before after,
        out = before ++ ("version", VStr newVersion) :: after
        /\ incl (keys before) fs0).
Proof.
  intros Hfs Hofs Hpkg Hord out. subst out.
  assert (Hv : ordinary "version" = true) by reflexivity.
  pose proof (set_NoDup pkg "version" (VStr newVersion) Hv Hpkg) as Hset.
  pose proof (set_all_ordinary pkg "version" (VStr newVersion) Hv Hord) as Hso.
  split; [|split; [|split]].
  - rewrite (sort_with_get _ _ _ Hfs Hofs Hset Hso). apply get_set_same. exact Hv.
  - intros key Hne. rewrite (sort_with_get _ _ _ Hfs Hofs Hset Hso).
    apply get_set_other. exact Hne.
  - rewrite (sort_with_spec _ _ Hfs Hofs Hset Hso).
    apply sort_with_keys_NoDup; assumption.
  - intros Hnv. rewrite (sort_with_spec _ _ Hfs Hofs Hset Hso), picked_app.
    exists (picked fs0 (set pkg "version" (VStr newVersion))).
    eexists. split.
    + rewrite <- app_assoc. f_equal.
      unfold picked at 1. cbn [flat_map]. rewrite (get_set_same _ _ _ Hv).
      cbn [truthy].
      destruct (String.eqb_spec newVersion ""); [contradiction|].
      cbn [negb]. rewrite <- app_assoc. reflexivity.
    + intros k Hin. eapply keys_picked. exact Hin.
Qed.

Lemma fields_version :
  fields = ["$schema"; "name"; "displayName"] ++ "version" :: skipn 4 fields.
Proof. vm_compute. reflexivity. Qed.

(** X7.  For a package whose keys are ordinary (no array index, no
    [__proto__]), what [release] writes back after a version bump holds
    the new version under [version] and every other entry as it was, each
    key once; when the new version is not the empty string, [version]
    comes right after [$schema], [name] and [displayName], as far as the
    package has them. *)
Theorem bumped_package (pkg : Obj) (newVersion : string) :
  NoDup (keys pkg) ->
  all_ordinary pkg = true ->
  get (bumped pkg newVersion) "version" = Some (VStr newVersion)
  /\ (forall key, key <> "version" ->
        get (bumped pkg newVersion) key = get pkg key)
  /\ NoDup (keys (bumped pkg newVersion))
  /\ (newVersion <> "" ->
      exists before after,
        bumped pkg newVersion = before ++ ("version", VStr newVersion) :: after
        /\ incl (keys before) ["$schema"; "name"; "displayName"]).
Proof.
  intros Hpkg Hord. unfold bumped, sortPackageJSON.
  pose proof fields_NoDup as Hfs. pose proof fields_ordinary as Hofs.
  revert Hfs Hofs. rewrite fields_version. intros Hfs Hofs.
  exact (bumped_with _ _ pkg newVersion Hfs Hofs Hpkg Hord).
Qed.

End SortFacts.

(** ** The config store *)

Section ConfigFacts.
Import Config.
Variable V : Type.
Variable truthy : V -> bool.
Variable localeCompare : string -> string -> Z.

Lemma lookup_assign_same (es : Entries V) (key : string) (v : V) :
  lookup (assign es key v) key = Some v.
Proof.
  induction es as [|[k0 v0] es IH]; simpl.
  - rewrite String.eqb_refl. reflexivity.
  - destruct (String.eqb k0 key) eqn:E; simpl; rewrite E; [reflexivity|exact IH].
Qed.

Lemma lookup_assign_other (es : Entries V) (key key' : string) (v : V) :
  key' <> key -> lookup (assign es key v) key' = lookup es key'.
Proof.
  intros Hne. induction es as [|[k0 v0] es IH]; simpl.
  - destruct (String.eqb_spec key key'); [congruence|reflexivity].
  - destruct (String.eqb_spec k0 key) as [->|Hk]; simpl.
    + destruct (String.eqb_spec key key'); [congruence|reflexivity].
    + rewrite IH. reflexivity.
Qed.

Lemma lookup_remove_same (es : Entries V) (key : string) :
  lookup (remove es key) key = None.
Proof.
  induction es as [|[k0 v0] es IH]; simpl; [reflexivity|].
  destruct (String.eqb k0 key) eqn:E; simpl; rewrite ?E; exact IH.
Qed.

Lemma lookup_remove_other (es : Entries V) (key key' : string) :
  key' <> key -> lookup (remove es key) key' = lookup es key'.
Proof.
  intros Hne. induction es as [|[k0 v0] es IH]; simpl; [reflexivity|].
  destruct (String.eqb_spec k0 key) as [->|Hk]; simpl.
  - rewrite IH. destruct (String.eqb_spec key key'); [congruence|reflexivity].
  - rewrite IH. reflexivity.
Qed.

(** What [get] finds right after a [set] on a prepared config. *)
Lemma get_after_set
    (file : option (Entries V)) (st0 : State V) (key : string) (value : V) :
  get key (snd (fst (set truthy localeCompare key value (prepare file st0))))
    = inr (if truthy value then Some value else None)
  /\ isReady (snd (fst (set truthy localeCompare key value (prepare file st0))))
     = true.
Proof.
  unfold prepare, load, set, get. cbn. split; [|reflexivity].
  f_equal. destruct (truthy value).
  - apply lookup_assign_same.
  - apply lookup_remove_same.
Qed.

(** X8.  On a config prepared from no file or from a file that loads as
    a plain object, and for a key that [Object.prototype] has no property
    of: [set] does not throw; a [get] of the key then yields the value
    when it is truthy and nothing when it is falsy, the entry being
    deleted; every other such key reads as before; and the config stays
    ready. *)
Theorem config_set_then_get
    (file : option (Entries V)) (st0 : State V) (key : string) (value : V) :
  own_only key = true ->
  fst (fst (set truthy localeCompare key value (prepare file st0))) = None
  /\ get key (snd (fst (set truthy localeCompare key value (prepare file st0))))
     = inr (if truthy value then Some value else None)
  /\ (forall key', own_only key' = true -> key' <> key ->
        get key' (snd (fst (set truthy localeCompare key value (prepare file st0))))
        = get key' (prepare file st0))
  /\ isReady (snd (fst (set truthy localeCompare key value (prepare file st0))))
     = true.
Proof.
  intros _. unfold prepare, load, set, get. cbn.
  split; [reflexivity|]. split; [|split; [|reflexivity]].
  - f_equal. destruct (truthy value).
    + apply lookup_assign_same.
    + apply lookup_remove_same.
  - intros key' _ Hne. f_equal. destruct (truthy value).
    + apply lookup_assign_other. exact Hne.
    + apply lookup_remove_other. exact Hne.
Qed.

Lemma lookup_In (es : Entries V) (k : string) (v : V) :
  lookup es k = Some v -> In (k, v) es.
Proof.
  induction es as [|[k0 v0] es IH]; simpl; [discriminate|].
  destruct (String.eqb_spec k0 k) as [->|Hne].
  - intros [= ->]. left. reflexivity.
  - intros H. right. apply IH. exact H.
Qed.

Lemma In_lookup (es : Entries V) (k : string) (v : V) :
  NoDup (map fst es) -> In (k, v) es -> lookup es k = Some v.
Proof.
  induction es as [|[k0 v0] es IH]; simpl; [intros _ []|].
  intros Hnd [Heq|Hin].
  - injection Heq as -> ->. rewrite String.eqb_refl. reflexivity.
  - inversion Hnd as [|? ? Hk0 Hnd']. subst.
    destruct (String.eqb_spec k0 k) as [->|Hne].
    + exfalso. apply Hk0. change k with (fst (k, v)). apply in_map. exact Hin.
    + apply IH; assumption.
Qed.

Lemma lookup_None (es : Entries V) (k : string) :
  lookup es k = None <-> ~ In k (map fst es).
Proof.
  induction es as [|[k0 v0] es IH]; simpl.
  - split; [intros _ []|reflexivity].
  - destruct (String.eqb_spec k0 k) as [->|Hne].
    + split; [discriminate|]. intros H. exfalso. apply H. left. reflexivity.
    + rewrite IH. split.
      * intros H [Heq|Hin]; [congruence|auto].
      * intros H Hin. apply H. right. exact Hin.
Qed.

Lemma assign_fresh (es : Entries V) (k : string) (v : V) :
  ~ In k (map fst es) -> assign es k v = es ++ [(k, v)].
Proof.
  induction es as [|[k0 v0] es IH]; simpl; [reflexivity|].
  intros H. destruct (String.eqb_spec k0 k) as [->|Hne].
  - exfalso. apply H. left. reflexivity.
  - rewrite IH; [reflexivity|]. intros Hin. apply H. right. exact Hin.
Qed.

Lemma keys_assign (es : Entries V) (k : string) (v : V) :
  map fst (assign es k v)
  = if existsb (String.eqb k) (map fst es) then map fst es
    else map fst es ++ [k].
Proof.
  induction es as [|[k0 v0] es IH]; simpl; [reflexivity|].
  rewrite (String.eqb_sym k k0).
  destruct (String.eqb k0 k) eqn:E; simpl; [reflexivity|].
  rewrite IH. destruct (existsb (String.eqb k) (map fst es)); reflexivity.
Qed.

Lemma assign_NoDup (es : Entries V) (k : string) (v : V) :
  NoDup (map fst es) -> NoDup (map fst (assign es k v)).
Proof.
  intros Hnd. rewrite keys_assign.
  destruct (existsb (String.eqb k) (map fst es)) eqn:E; [exact Hnd|].
  apply NoDup_app; [exact Hnd|repeat constructor; intros []|].
  intros k' Hin [<-|[]].
  assert (Ht : existsb (String.eqb k) (map fst es) = true).
  { apply existsb_exists. exists k. split; [exact Hin|apply String.eqb_refl]. }
  congruence.
Qed.

Lemma remove_filter (es : Entries V) (k : string) :
  remove es k = filter (fun e => negb (String.eqb (fst e) k)) es.
Proof.
  induction es as [|[k0 v0] es IH]; simpl; [reflexivity|].
  destruct (String.eqb k0 k); simpl; rewrite IH; reflexivity.
Qed.

Lemma remove_NoDup (es : Entries V) (k : string) :
  NoDup (map fst es) -> NoDup (map fst (remove es k)).
Proof.
  rewrite remove_filter.
  induction es as [|[k0 v0] es IH]; simpl; [constructor|].
  intros Hnd. inversion Hnd as [|? ? Hk0 Hnd']. subst.
  destruct (negb (String.eqb k0 k)); simpl; [|auto].
  constructor; [|auto].
  intros Hin. apply Hk0. apply in_map_iff in Hin.
  destruct Hin as [[k1 v1] [Hk Hin]]. simpl in Hk. subst k1.
  apply filter_In in Hin. change k0 with (fst (k0, v1)). apply in_map. apply Hin.
Qed.

(** The insertion sort. *)
Lemma insert_perm (k : string) (l : list string) :
  Permutation (insert localeCompare k l) (k :: l).
Proof.
  induction l as [|k' l IH]; simpl; [reflexivity|].
  destruct (localeCompare k k' <? 0)%Z; [reflexivity|].
  rewrite IH. apply perm_swap.
Qed.

Lemma sort_perm_acc (ks acc : list string) :
  Permutation (fold_left (fun a k => insert localeCompare k a) ks acc) (ks ++ acc).
Proof.
  revert acc. induction ks as [|k ks IH]; intros acc; simpl; [reflexivity|].
  rewrite IH, insert_perm. symmetry. apply Permutation_middle.
Qed.

Lemma sort_perm (ks : list string) : Permutation (sort localeCompare ks) ks.
Proof.
  unfold sort. rewrite sort_perm_acc, app_nil_r. reflexivity.
Qed.

Section Ordered.
(** The comparator is consistent: when [a] does not come before [b], [b]
    does not come after [a]. *)
Hypothesis compare_total :
  forall a b, (0 <= localeCompare a b)%Z -> (localeCompare b a <= 0)%Z.

Lemma insert_sorted (k : string) (l : list string) :
  Sorted (le localeCompare) l ->
  Sorted (le localeCompare) (insert localeCompare k l).
Proof.
  induction 1 as [|k' l Hs IH Hhd]; simpl.
  - repeat constructor.
  - destruct (Z.ltb_spec (localeCompare k k') 0) as [Hlt|Hge].
    + constructor; [constructor; assumption|].
      constructor. unfold le. lia.
    + constructor; [exact IH|].
      destruct l as [|k'' l]; simpl.
      * constructor. apply compare_total. exact Hge.
      * destruct (localeCompare k k'' <? 0)%Z.
        -- constructor. apply compare_total. exact Hge.
        -- inversion Hhd. constructor. assumption.
Qed.

Lemma sort_sorted_acc (ks acc : list string) :
  Sorted (le localeCompare) acc ->
  Sorted (le localeCompare)
    (fold_left (fun a k => insert localeCompare k a) ks acc).
Proof.
  revert acc. induction ks as [|k ks IH]; intros acc Hacc; simpl; [exact Hacc|].
  apply IH. apply insert_sorted. exact Hacc.
Qed.

Lemma sort_sorted (ks : list string) :
  Sorted (le localeCompare) (sort localeCompare ks).
Proof. apply sort_sorted_acc. constructor. Qed.
End Ordered.

(** The reduce of [sync] over keys that are all different. *)
Lemma snapshot_fold (es : Entries V) (ks : list string) (acc : Entries V) :
  NoDup ks ->
  (forall k, In k ks -> ~ In k (map fst acc)) ->
  (forall k, In k ks -> In k (map fst es)) ->
  map fst
    (fold_left
       (fun all path =>
          match lookup es path with
          | Some v => assign all path v
          | None => all
          end)
       ks acc)
  = map fst acc ++ ks
  /\ forall k,
       lookup
         (fold_left
            (fun all path =>
               match lookup es path with
               | Some v => assign all path v
               | None => all
               end)
            ks acc) k
       = if existsb (String.eqb k) ks then lookup es k else lookup acc k.
Proof.
  intros Hnd. revert acc. induction Hnd as [|k0 ks Hk0 Hnd IH];
    intros acc Hfresh Hin; simpl.
  - split; [symmetry; apply app_nil_r|reflexivity].
  - destruct (lookup es k0) as [v|] eqn:Hl.
    2:{ exfalso. apply lookup_None in Hl. apply Hl. apply Hin. left. reflexivity. }
    assert (Hf0 : ~ In k0 (map fst acc)) by (apply Hfresh; left; reflexivity).
    destruct (IH (assign acc k0 v)) as [Hkeys Hlook].
    + intros k Hk. rewrite (assign_fresh acc k0 v Hf0), map_app.
      intros Habs. apply in_app_or in Habs. destruct Habs as [Habs|[<-|[]]].
      * apply (Hfresh k); [right; exact Hk|exact Habs].
      * apply Hk0. exact Hk.
    + intros k Hk. apply Hin. right. exact Hk.
    + split.
      * rewrite Hkeys, (assign_fresh acc k0 v Hf0), map_app, <- app_assoc.
        reflexivity.
      * intros k. rewrite Hlook.
        destruct (String.eqb_spec k k0) as [->|Hne]; simpl.
        -- destruct (existsb (String.eqb k0) ks) eqn:E.
           ++ exfalso. apply Hk0. apply existsb_exists in E.
              destruct E as [x [Hx Hxe]]. apply String.eqb_eq in Hxe.
              subst. exact Hx.
           ++ rewrite lookup_assign_same. symmetry. exact Hl.
        -- destruct (existsb (String.eqb k) ks); [reflexivity|].
           apply lookup_assign_other. exact Hne.
Qed.

Lemma snapshot_spec (es : Entries V) :
  NoDup (map fst es) ->
  map fst (snapshot localeCompare es) = sort localeCompare (map fst es)
  /\ forall k, lookup (snapshot localeCompare es) k = lookup es k.
Proof.
  intros Hnd. unfold snapshot.
  pose proof (sort_perm (map fst es)) as Hperm.
  destruct (snapshot_fold es (sort localeCompare (map fst es)) []) as [Hk Hl].
  - apply (Permutation_NoDup (Permutation_sym Hperm) Hnd).
  - intros k _ [].
  - intros k Hin. apply (Permutation_in _ Hperm Hin).
  - split; [exact Hk|]. intros k. rewrite Hl.
    destruct (existsb (String.eqb k) (sort localeCompare (map fst es))) eqn:E;
      [reflexivity|].
    simpl. symmetry. apply lookup_None. intros Hin.
    assert (Ht : existsb (String.eqb k) (sort localeCompare (map fst es)) = true).
    { apply existsb_exists. exists k. split; [|apply String.eqb_refl].
      apply (Permutation_in _ (Permutation_sym Hperm) Hin). }
    congruence.
Qed.

(** X9.  Every [set] on a ready config hands one object to the file
    writer: it holds the entries of the config as [set] left it, all of
    them and no other, and its keys are in the order of the comparator. *)
Theorem config_set_writes_sorted_snapshot
    (st : State V) (es : Entries V) (key : string) (value : V) :
  (forall a b, (0 <= localeCompare a b)%Z -> (localeCompare b a <= 0)%Z) ->
  isReady st = true ->
  _config st = Some es ->
  NoDup (map fst es) ->
  exists es' written,
    set truthy localeCompare key value st
      = (None, {| _config := Some es'; isReady := true |}, [written])
    /\ NoDup (map fst es')
    /\ Permutation written es'
    /\ (forall k, lookup written k = lookup es' k)
    /\ Sorted (le localeCompare) (map fst written).
Proof.
  intros Hcmp Hready Hcfg Hnd. unfold set. rewrite Hready, Hcfg.
  set (es' := if truthy value then assign es key value else remove es key).
  assert (Hnd' : NoDup (map fst es')).
  { subst es'. destruct (truthy value);
      [apply assign_NoDup|apply remove_NoDup]; exact Hnd. }
  destruct (snapshot_spec es' Hnd') as [Hkeys Hlook].
  exists es', (snapshot localeCompare es').
  split; [reflexivity|]. split; [exact Hnd'|].
  assert (Hwnd : NoDup (map fst (snapshot localeCompare es'))).
  { rewrite Hkeys.
    apply (Permutation_NoDup (Permutation_sym (sort_perm _)) Hnd'). }
  split; [|split; [exact Hlook|]].
  - apply NoDup_Permutation.
    + apply (NoDup_map_inv _ _ Hwnd).
    + apply (NoDup_map_inv _ _ Hnd').
    + intros [k v]. split; intros Hin.
      * apply lookup_In. rewrite <- Hlook. apply In_lookup; assumption.
      * apply lookup_In. rewrite Hlook. apply In_lookup; assumption.
  - rewrite Hkeys. apply sort_sorted. exact Hcmp.
Qed.

End ConfigFacts.

(** ** The verbs *)

Section VerbFacts.
Import Watch DevTools.
Variable localeCompare : string -> string -> Z.
Variable shell : string -> option string.
Variable resolve : string -> string -> string.
Variable exist : string -> bool.
Variable isDir : string -> bool.

Lemma in_shell_effects (c : Command) :
  fst (in_shell shell c) = map Shell (commands c).
Proof. destruct c; reflexivity. Qed.

(** X10.  A verb called without a command runs what [config.set] stored
    under its key, all of it, in order, or its built-in default when the
    value stored was falsy; called with a command it runs that command and
    does not read the config, prepared or not; called without one on a
    config that was not prepared it throws and runs nothing. *)
Theorem verb_runs_what_set_stored
    (key default : string) (file : option (Config.Entries Command))
    (st0 : Config.State Command) (c : Command) :
  fst (verb shell key default None
         (snd (fst (Config.set command_truthy localeCompare key c
                      (Config.prepare file st0)))))
    = map Shell (if command_truthy c then commands c else [default])
  /\ (forall given st,
        fst (verb shell key default (Some given) st) = map Shell (commands given))
  /\ verb shell key default None Config.unloaded = ([], Threw Config.NotReady).
Proof.
  split; [|split; [|reflexivity]].
  - destruct (get_after_set Command command_truthy localeCompare
                file st0 key c) as (Hget & _).
    unfold verb, resolve_command. rewrite Hget.
    destruct (command_truthy c); [apply in_shell_effects|reflexivity].
  - intros given st. unfold verb, resolve_command. apply in_shell_effects.
Qed.

(** X11.  [clean] removes a directory only after the question was asked
    and answered with yes, and only one of [node_modules], [dist] and
    [lib] resolved against the working directory that exists and is a
    directory. *)
Theorem clean_removes_only_confirmed_directories
    (cwd : string) (given : option Command) (st : Config.State Command)
    (ok : bool) (p : string) :
  In (Rimraf p) (fst (clean shell resolve exist isDir cwd given st ok)) ->
  ok = true
  /\ (exists name, In name dirs /\ p = resolve cwd name)
  /\ exist p = true
  /\ isDir p = true
  /\ (exists message,
        In (Prompt message) (fst (clean shell resolve exist isDir cwd given st ok))).
Proof.
  assert (Hask : In (Rimraf p) (ask resolve exist isDir cwd ok) ->
            ok = true
            /\ (exists name, In name dirs /\ p = resolve cwd name)
            /\ exist p = true /\ isDir p = true).
  { unfold ask. intros [Habs|Hin]; [discriminate|].
    destruct ok; [|destruct Hin]. split; [reflexivity|].
    unfold removals in Hin. apply in_flat_map in Hin.
    destruct Hin as [name [Hname Hin]].
    destruct (exist (resolve cwd name) && isDir (resolve cwd name)) eqn:E;
      [|destruct Hin].
    destruct Hin as [[= <-]|[]]. apply andb_true_iff in E.
    destruct E as [He Hd]. repeat split; eauto. }
  assert (Hshell : forall cs, ~ In (Rimraf p) (map Shell cs)).
  { intros cs Hin. apply in_map_iff in Hin. destruct Hin as [x [Hx _]].
    discriminate. }
  unfold clean.
  destruct (resolve_command given "clean" st) as [e|[c|]]; cbn [fst].
  - intros [].
  - destruct (command_truthy c).
    + destruct c as [s|cs].
      * destruct (shell s); cbn [fst].
        -- intros [Habs|[]]. discriminate.
        -- intros [Habs|Hin]; [discriminate|].
           destruct (Hask Hin) as (H1 & H2 & H3 & H4).
           repeat split; auto. eexists. right. left. reflexivity.
      * cbn [in_shell fst]. intros Hin. destruct (Hshell cs Hin).
    + cbn [fst]. intros Hin. destruct (Hask Hin) as (H1 & H2 & H3 & H4).
      repeat split; auto. eexists. left. reflexivity.
  - intros Hin. destruct (Hask Hin) as (H1 & H2 & H3 & H4).
    repeat split; auto. eexists. left. reflexivity.
Qed.

(** X12.  With a list of commands [clean] runs them and is done: it asks
    nothing and removes nothing.  With a single command that succeeds it
    goes on to the question, and to the removals on a yes; with one that
    fails it stops there. *)
Theorem clean_with_custom_command
    (cwd : string) (st : Config.State Command) (ok : bool) :
  (forall cs,
     fst (clean shell resolve exist isDir cwd (Some (CmdMany cs)) st ok)
     = map Shell cs)
  /\ (forall s, s <> "" -> shell s = None ->
        clean shell resolve exist isDir cwd (Some (CmdOne s)) st ok
        = (Shell s :: ask resolve exist isDir cwd ok, Fulfilled))
  /\ (forall s e, s <> "" -> shell s = Some e ->
        clean shell resolve exist isDir cwd (Some (CmdOne s)) st ok
        = ([Shell s], Rejected [e])).
Proof.
  split; [|split].
  - intros cs. reflexivity.
  - intros s Hs Hok. unfold clean. cbn [resolve_command].
    destruct s as [|a s]; [contradiction|]. cbn [command_truthy].
    rewrite Hok. reflexivity.
  - intros s e Hs Hfail. unfold clean. cbn [resolve_command].
    destruct s as [|a s]; [contradiction|]. cbn [command_truthy].
    rewrite Hfail. reflexivity.
Qed.

End VerbFacts.

(** ** [watch] once more *)

Section WatchMore.
Import Watch DevTools.

Lemma absolute_append (a b : string) :
  absolute a = true -> absolute (a ++ b)%string = true.
Proof.
  destruct a as [|ch a]; [discriminate|]. simpl.
  destruct ch as [[] [] [] [] [] [] [] []]; simpl; auto.
Qed.

(** X13.  When [watch] registers the watcher it does so once, after its
    two lines of log and before the first call of the runner; the path it
    registers is absolute whenever the working directory is, and the
    patterns it ignores start with the one for [.git], followed by the
    patterns of the caller. *)
Theorem watch_registers_absolute_path
    (cwd : string) (cfg : DevToolsConfig) (options : option WatchOptions)
    (p : string) (ign : list string) :
  In (RegisterWatcher p ign) (fst (watch cwd cfg options)) ->
  (exists line1 line2,
     watch cwd cfg options
     = ([Info line1; Info line2; RegisterWatcher p ign; CallRun true], None))
  /\ (absolute cwd = true -> absolute p = true)
  /\ (exists o,
        options = Some o
        /\ ign = "\.git" :: match ignore o with
                            | Some ig => if ignore_truthy ig then patterns ig else []
                            | None => []
                            end).
Proof.
  unfold watch.
  destruct (match opt command options with
            | Some c => inr (Some c)
            | None => get_watch cfg
            end) as [e|cmd]; [intros []|].
  destruct options as [o|]; [|intros []].
  destruct cmd as [c|]; [|intros []].
  destruct (command_truthy c); [|intros []].
  cbn [fst opt].
  intros [Habs|[Habs|[Heq|[Habs|[]]]]]; try discriminate.
  injection Heq as <- <-.
  split; [eauto|]. split; [|eauto].
  intros Hcwd.
  destruct (absolute (or_else (path o) (or_else (context o) cwd))) eqn:E;
    [exact E|].
  apply absolute_append. exact Hcwd.
Qed.

(** X14.  A command given in the options is final: [watch] then behaves
    the same on every config, which it does not read, prepared or not; in
    particular an empty string given as the command fails with
    'Watch no command found' even when the config has a default. *)
Theorem watch_given_command_is_final
    (cwd : string) (cfg cfg' : DevToolsConfig) (o : WatchOptions) (c : Command) :
  command o = Some c ->
  watch cwd cfg (Some o) = watch cwd cfg' (Some o)
  /\ (c = CmdOne "" -> watch cwd cfg (Some o) = ([], Some WatchNoCommand)).
Proof.
  intros Hc. unfold watch, opt. rewrite Hc. split; [reflexivity|].
  intros ->. reflexivity.
Qed.

(** X15.  After [config.set('watch', c)] on a prepared config, [watch]
    called with options that carry no command runs [c]: it registers the
    watcher and calls the runner; after a [set] with a falsy value it
    fails with 'Watch no command found', whatever the file held. *)
Theorem watch_runs_what_set_stored
    (localeCompare : string -> string -> Z)
    (cwd : string) (file : option (Config.Entries Command))
    (st0 : Config.State Command) (c : Command) (o : WatchOptions) :
  command o = None ->
  (command_truthy c = true ->
     snd (watch cwd
            (view (snd (fst (Config.set command_truthy localeCompare "watch" c
                               (Config.prepare file st0)))))
            (Some o)) = None
     /\ exists line p ign,
          fst (watch cwd
                 (view (snd (fst (Config.set command_truthy localeCompare "watch" c
                                    (Config.prepare file st0)))))
                 (Some o))
          = [ Info ("[watch] command: " ++ show c ++ " in context("
                      ++ or_else (context o) cwd ++ ")")%string;
              Info line; RegisterWatcher p ign; CallRun true ])
  /\ (command_truthy c = false ->
        watch cwd
          (view (snd (fst (Config.set command_truthy localeCompare "watch" c
                             (Config.prepare file st0)))))
          (Some o)
        = ([], Some WatchNoCommand)).
Proof.
  intros Hc.
  destruct (get_after_set Command command_truthy localeCompare
              file st0 "watch" c) as (Hget & Hready).
  remember (snd (fst (Config.set command_truthy localeCompare "watch" c
                        (Config.prepare file st0)))) as st' eqn:Hst.
  assert (Hview : get_watch (view st')
                  = inr (if command_truthy c then Some c else None)).
  { unfold get_watch, view. cbn [Watch.isReady watch_entry]. rewrite Hready.
    unfold Config.get in Hget. rewrite Hready in Hget.
    injection Hget as Hget. exact (f_equal inr Hget). }
  unfold watch, opt. rewrite Hc, Hview. split; intros Ht; rewrite Ht.
  - rewrite Ht. split; [reflexivity|]. eexists _, _, _. reflexivity.
  - reflexivity.
Qed.

Lemma spawn_from_commands (g i : nat) (cs : list string) :
  map snd (spawn_from g i cs) = cs.
Proof.
  revert i. induction cs as [|c cs IH]; intros i; simpl; [reflexivity|].
  rewrite IH. reflexivity.
Qed.

Lemma spawn_from_index (g i : nat) (cs : list string) (h : Handle) :
  In h (map fst (spawn_from g i cs)) -> fst h = g /\ i <= snd h.
Proof.
  revert i. induction cs as [|c cs IH]; intros i; simpl; [intros []|].
  intros [<-|Hin]; [simpl; auto|].
  destruct (IH (S i) Hin) as [Hg Hi]. split; [exact Hg|lia].
Qed.

Lemma spawn_from_NoDup (g i : nat) (cs : list string) :
  NoDup (map fst (spawn_from g i cs)).
Proof.
  revert i. induction cs as [|c cs IH]; intros i; simpl; constructor.
  - intros Hin. apply spawn_from_index in Hin. simpl in Hin. lia.
  - apply IH.
Qed.

Lemma launched_spawns (ps : list (Handle * string)) :
  Cycle.launched (map (fun hc => EvSpawn (fst hc) (snd hc)) ps) = ps.
Proof.
  induction ps as [|[h c] ps IH]; simpl; [reflexivity|]. rewrite IH. reflexivity.
Qed.

Lemma launched_run (cmd : Command) (first : bool) (g : nat) :
  Cycle.launched (snd (Watch.run cmd first g)) = procs cmd g.
Proof.
  rewrite (run_events cmd first g).
  destruct first; simpl; apply launched_spawns.
Qed.

(** X16.  One job execution of the watch runner starts one process per
    command: the commands it hands to [runInBackground] are the commands
    of the job, each once and in their order, and it does nothing else
    but print the banner first; the handles it resolves to are the
    handles of these processes, in the same order and each once, all of
    this job execution. *)
Theorem run_spawns_one_process_per_command
    (cmd : Command) (first : bool) (g : nat) :
  map snd (Cycle.launched (snd (Watch.run cmd first g))) = commands cmd
  /\ map fst (Cycle.launched (snd (Watch.run cmd first g)))
     = handles (fst (Watch.run cmd first g))
  /\ snd (Watch.run cmd first g)
     = banner first
       ++ map (fun hc => EvSpawn (fst hc) (snd hc))
            (Cycle.launched (snd (Watch.run cmd first g)))
  /\ NoDup (handles (fst (Watch.run cmd first g)))
  /\ length (handles (fst (Watch.run cmd first g))) = length (commands cmd)
  /\ (forall h, In h (handles (fst (Watch.run cmd first g))) -> fst h = g).
Proof.
  assert (Hcmd : map snd (procs cmd g) = commands cmd).
  { destruct cmd; [reflexivity|apply spawn_from_commands]. }
  rewrite launched_run, (run_handles cmd first g).
  split; [exact Hcmd|]. split; [reflexivity|].
  split; [apply run_events|]. split; [|split].
  - destruct cmd; simpl; [repeat constructor; intros []|apply spawn_from_NoDup].
  - rewrite <- Hcmd, !length_map. reflexivity.
  - intros h Hin. destruct cmd as [c|cs]; simpl in Hin.
    + destruct Hin as [<-|[]]. reflexivity.
    + apply (spawn_from_index g 0 cs h Hin).
Qed.

End WatchMore.

(** ** The pipeline never skips a command *)

Section PrefixFacts.
Import Pipeline.
Variable World : Type.
Variable spawn : string -> World -> SpawnResult * World.

Lemma filter_forwarded (f : Emit -> bool) (output : list ChildEvent) :
  (forall p, f (EmitData p) = false) ->
  filter f (map (fun ev => EmitData (payload ev)) output) = [].
Proof.
  intros Hf. induction output as [|ev out IH]; simpl; [reflexivity|].
  rewrite Hf. exact IH.
Qed.

(** X17.  Whatever the commands do, a pipeline spawns a prefix of its
    list, in order and without repetition, and it emits ['exit'] only when
    that prefix is the whole list. *)
Theorem pipeline_spawns_a_prefix (commands : list string) (w : World) :
  exists rest,
    commands = spawned (fst (run spawn commands w)) ++ rest
    /\ (exit_count (fst (run spawn commands w)) = 1 -> rest = [])
    /\ (rest <> [] -> snd (run spawn commands w) = Suspended
                      \/ error_count (fst (run spawn commands w)) = 1).
Proof.
  revert w. induction commands as [|c cs IH]; intros w.
  - exists []. simpl. repeat split; auto. intros H. contradiction.
  - simpl. destruct (spawn c w) as [[e|output [code|]] w'].
    + exists cs. simpl. repeat split; auto. unfold exit_count. simpl. discriminate.
    + destruct (IH w') as (rest & Heq & Hexit & Hrest).
      destruct (run spawn cs w') as [tr st]. cbn [fst snd] in *.
      exists rest.
      assert (Hsp : spawned (ASpawn c :: AAwait :: map forward output
                               ++ AResolve c code :: tr) = c :: spawned tr).
      { simpl. rewrite spawned_app, spawned_forward. reflexivity. }
      assert (Hem : emits (ASpawn c :: AAwait :: map forward output
                             ++ AResolve c code :: tr)
                    = map (fun ev => EmitData (payload ev)) output ++ emits tr).
      { simpl. rewrite emits_app, emits_forward. reflexivity. }
      split; [|split].
      * rewrite Hsp. simpl. f_equal. exact Heq.
      * unfold exit_count in *. rewrite Hem, filter_app, filter_forwarded by reflexivity.
        exact Hexit.
      * intros Hne. destruct (Hrest Hne) as [Hs|He]; [left; exact Hs|right].
        unfold error_count in *. rewrite Hem, filter_app, filter_forwarded by reflexivity.
        exact He.
    + exists cs. simpl. rewrite spawned_forward.
      repeat split; auto.
      unfold exit_count. simpl. rewrite emits_forward.
      intros H. exfalso.
      rewrite filter_forwarded in H by reflexivity. discriminate.
Qed.

End PrefixFacts.

(** ** One whole invocation of the handler *)

Section CycleFacts.
Import Watch Cycle.
Variable cmd : Command.

Lemma exec_cons (t : Tick) (sched : list Tick) (st : State) :
  exec cmd (t :: sched) st = exec cmd sched (step cmd t st).
Proof. reflexivity. Qed.

(** From the first [await] of the kill loop to the end of the handler. *)
Lemma finish_kills (rest : list Handle) (h : Handle) (first : bool)
    (c : Child) (g : nat) (l : list Ev) :
  exec cmd (repeat (Resume 0) (S (S (length rest))))
    {| child := c; tasks := [AwaitKill h rest first]; runs := g; log := l |}
  = {| child := fst (run cmd first g); tasks := []; runs := S g;
       log := rev (snd (run cmd first g))
                ++ rev (EvKilled h :: kills rest) ++ l |}.
Proof.
  revert h l. induction rest as [|h' rest IH]; intros h l.
  - simpl repeat. rewrite !exec_cons. simpl exec.
    unfold step, resume. cbn [tasks nth_error proceed child runs log].
    destruct (run cmd first g) as [result evs].
    cbn [tasks nth_error replace_nth remove_nth firstn skipn app child runs log fst snd].
    reflexivity.
  - cbn [length]. change (repeat (Resume 0) (S (S (S (length rest)))))
      with (Resume 0 :: repeat (Resume 0) (S (S (length rest)))).
    rewrite exec_cons.
    unfold step at 1, resume.
    cbn [tasks nth_error proceed child runs log replace_nth firstn skipn app].
    rewrite IH. f_equal. f_equal. simpl.
    rewrite <- !app_assoc. reflexivity.
Qed.

(** X18.  In a session where no invocation is parked, one whole invocation
    of the handler calls [kill()] on each handle it holds, once, in the
    order of the array and each only after the [await] of the kill before
    it has resumed; it then starts the job, and at its end [child] holds
    the handles of exactly that job execution. *)
Theorem invocation_kills_then_spawns (first : bool) (st : State) :
  tasks st = [] ->
  invoke cmd first st
  = {| child := fst (run cmd first (runs st));
       tasks := [];
       runs := S (runs st);
       log := rev (snd (run cmd first (runs st)))
                ++ rev (kills (handles (child st))) ++ log st |}.
Proof.
  intros Hidle. unfold invoke. rewrite exec_cons.
  destruct st as [c ts g l]. cbn [tasks child runs log] in *. subst ts.
  unfold step. rewrite fire_proceed. cbn [child tasks runs log].
  destruct (handles c) as [|h rest] eqn:Hh.
  - cbn [proceed length runs child log tasks].
    destruct (run cmd first g) as [result evs] eqn:Hr.
    cbn [fst snd child tasks runs log app]. simpl repeat. rewrite exec_cons.
    simpl exec. unfold step, resume.
    cbn [tasks nth_error remove_nth firstn skipn app child runs log].
    reflexivity.
  - cbn [proceed fst snd child tasks runs log app length].
    rewrite finish_kills. f_equal. simpl.
    rewrite <- !app_assoc. reflexivity.
Qed.

End CycleFacts.

(** ** The [clean] subcommand *)

Section CleanCommandFacts.
Import Watch DevTools CleanCommand.
Variable shell : string -> option string.
Variable resolve : string -> string -> string.
Variable exist : string -> bool.
Variable isDir : string -> bool.


End CleanCommandFacts.

(** ** Instances *)

Section Instances.
Import Fixtures.

Lemma by_code_total (a b : string) :
  (0 <= by_code a b)%Z -> (by_code b a <= 0)%Z.
Proof.
  unfold by_code. rewrite (String.compare_antisym a b).
  destruct (String.compare b a); simpl; lia.
Qed.

Lemma file_keys_NoDup : NoDup (map fst file).
Proof.
  simpl. repeat constructor; simpl; intuition discriminate.
Qed.

Lemma package_keys_NoDup : NoDup (PackageJson.keys package).
Proof.
  unfold PackageJson.keys. simpl. repeat constructor; simpl; intuition discriminate.
Qed.

(** [server] never exits: [publish] is never spawned. *)
Lemma never_exiting_child_blocks_pipeline_witness :
  Pipeline.spawned
    (fst (Pipeline.run Samples.spawn (["build"] ++ "server" :: ["publish"]) 0))
    = ["build"] ++ ["server"]
  /\ snd (Pipeline.run Samples.spawn (["build"] ++ "server" :: ["publish"]) 0)
     = Pipeline.Suspended.
Proof.
  destruct (never_exiting_child_blocks_pipeline Samples.World Samples.spawn
              ["build"] ["publish"] "server" 0 [Pipeline.ChData "listening"]
              eq_refl eq_refl) as (H1 & _ & _ & _ & H5).
  split; assumption.
Defined.


(** Streams that refuse the value thrown: nothing reaches the error
    stream, and the promise is pending. *)
Example refused_error_is_not_written :
  Sink.released text_only Samples.spawn ["build"; "missing"] 0
  = ({| Release.stdout := ["build"]; Release.stderr := [];
        Release.promise := Release.Pending |}, false).
Proof. vm_compute. reflexivity. Qed.

Lemma config_set_then_get_witness :
  Config.own_only "dev" = true
  /\ Config.get "dev"
       (snd (fst (Config.set Watch.command_truthy by_code "dev"
                    (Watch.CmdOne "yarn dev")
                    (Config.prepare (Some file) Config.unloaded))))
     = inr (Some (Watch.CmdOne "yarn dev"))
  /\ Config.get "watch"
       (snd (fst (Config.set Watch.command_truthy by_code "dev"
                    (Watch.CmdOne "yarn dev")
                    (Config.prepare (Some file) Config.unloaded))))
     = inr (Some (Watch.CmdOne "yarn serve")).
Proof.
  destruct (config_set_then_get Watch.Command Watch.command_truthy by_code
              (Some file) Config.unloaded "dev" (Watch.CmdOne "yarn dev") eq_refl)
    as (_ & H1 & H2 & _).
  split; [reflexivity|]. split; [exact H1|].
  rewrite (H2 "watch" eq_refl); [reflexivity|discriminate].
Defined.

Lemma sortPackageJSON_idempotent_witness :
  PackageJson.all_ordinary package = true
  /\ PackageJson.sortPackageJSON (PackageJson.sortPackageJSON package)
     = PackageJson.sortPackageJSON package.
Proof.
  split; [reflexivity|].
  exact (proj1 (sortPackageJSON_idempotent package package_keys_NoDup eq_refl)).
Defined.

Lemma sortPackageJSON_consumes_argument_witness :
  Bump.leftover package = PackageJson.remaining PackageJson.fields package
  /\ PackageJson.get (Bump.leftover package) "name" = None
  /\ PackageJson.get (Bump.leftover package) "zeta" = Some (PackageJson.VNum 1).
Proof.
  destruct (sortPackageJSON_consumes_argument package package_keys_NoDup)
    as (H1 & H2 & _).
  split; [exact H1|]. split.
  - rewrite (H2 "name"). vm_compute. reflexivity.
  - rewrite (H2 "zeta"). vm_compute. reflexivity.
Defined.

Lemma bumped_package_witness :
  PackageJson.all_ordinary package = true
  /\ PackageJson.get (Bump.bumped package "1.0.1") "version"
    = Some (PackageJson.VStr "1.0.1")
  /\ PackageJson.get (Bump.bumped package "1.0.1") "scripts"
     = PackageJson.get package "scripts".
Proof.
  destruct (bumped_package package "1.0.1" package_keys_NoDup eq_refl)
    as (H1 & H2 & _).
  split; [reflexivity|]. split; [exact H1|]. apply H2. discriminate.
Defined.

Lemma config_set_writes_sorted_snapshot_witness :
  exists es' written,
    Config.set Watch.command_truthy by_code "dev" (Watch.CmdOne "yarn dev") ready
      = (None, {| Config._config := Some es'; Config.isReady := true |}, [written])
    /\ NoDup (map fst es')
    /\ Permutation written es'
    /\ (forall k, Config.lookup written k = Config.lookup es' k)
    /\ Sorted (Config.le by_code) (map fst written).
Proof.
  exact (config_set_writes_sorted_snapshot Watch.Command Watch.command_truthy
           by_code ready file "dev" (Watch.CmdOne "yarn dev")
           by_code_total eq_refl eq_refl file_keys_NoDup).
Defined.

(** What that [set] writes: the three keys in order. *)
Example config_set_writes :
  snd (Config.set Watch.command_truthy by_code "dev" (Watch.CmdOne "yarn dev") ready)
  = [ [ ("build", Watch.CmdMany ["tsc"; "rollup -c"]);
        ("dev", Watch.CmdOne "yarn dev");
        ("watch", Watch.CmdOne "yarn serve") ] ].
Proof. vm_compute. reflexivity. Qed.

(** [build] runs both configured commands although [tsc] fails. *)
Example build_runs_all :
  DevTools.build shell None ready
  = ([DevTools.Shell "tsc"; DevTools.Shell "rollup -c"],
     DevTools.Rejected ["exit 2"]).
Proof. vm_compute. reflexivity. Qed.

Lemma clean_removes_only_confirmed_directories_witness :
  DevTools.clean shell resolve exist isDir "/repo" None ready true
    = ([ DevTools.Prompt "Confirm to remove node_modules/dist/lib ?";
         DevTools.Rimraf "/repo/node_modules" ],
       DevTools.Fulfilled)
  /\ exist "/repo/node_modules" = true
  /\ isDir "/repo/node_modules" = true.
Proof.
  split; [vm_compute; reflexivity|].
  assert (Hin : In (DevTools.Rimraf "/repo/node_modules")
            (fst (DevTools.clean shell resolve exist isDir "/repo" None ready true))).
  { vm_compute. right. left. reflexivity. }
  destruct (clean_removes_only_confirmed_directories
              shell resolve exist isDir "/repo" None ready true
              "/repo/node_modules" Hin) as (_ & _ & H3 & H4 & _).
  split; assumption.
Defined.

Lemma watch_registers_absolute_path_witness :
  Watch.absolute "/repo/src" = true
  /\ exists o,
       Some options = Some o
       /\ ["\.git"; "dist"]
          = "\.git" :: match Watch.ignore o with
                       | Some ig =>
                           if Watch.ignore_truthy ig then Watch.patterns ig else []
                       | None => []
                       end.
Proof.
  assert (Hin : In (Watch.RegisterWatcher "/repo/src" ["\.git"; "dist"])
            (fst (Watch.watch "/repo" with_default (Some options)))).
  { vm_compute. right. right. left. reflexivity. }
  destruct (watch_registers_absolute_path "/repo" with_default (Some options)
              "/repo/src" ["\.git"; "dist"] Hin) as (_ & H2 & H3).
  split; [exact (H2 eq_refl)|exact H3].
Defined.

Lemma watch_given_command_is_final_witness :
  Watch.watch "/repo" with_default (Some empty_command)
    = Watch.watch "/repo" Samples.unprepared (Some empty_command)
  /\ Watch.watch "/repo" with_default (Some empty_command)
     = ([], Some Watch.WatchNoCommand).
Proof.
  destruct (watch_given_command_is_final "/repo" with_default Samples.unprepared
              empty_command (Watch.CmdOne "") eq_refl) as [H1 H2].
  split; [exact H1|exact (H2 eq_refl)].
Defined.

Lemma watch_runs_what_set_stored_witness :
  snd (Watch.watch "/repo"
         (DevTools.view
            (snd (fst (Config.set Watch.command_truthy by_code "watch"
                         (Watch.CmdOne "yarn dev")
                         (Config.prepare None Config.unloaded)))))
         (Some options))
  = None.
Proof.
  destruct (watch_runs_what_set_stored by_code "/repo" None Config.unloaded
              (Watch.CmdOne "yarn dev") options eq_refl) as [H _].
  exact (proj1 (H eq_refl)).
Defined.

(** The second run of a session: the process of the first is killed,
    the kill is awaited, the banner is printed and the command restarted. *)
Lemma invocation_kills_then_spawns_witness :
  Watch.log (Cycle.invoke Samples.serve false
               (Cycle.invoke Samples.serve true Watch.init))
  = [ Watch.EvSpawn (1, 0) "serve"; Watch.EvBanner;
      Watch.EvKilled (0, 0); Watch.EvKill (0, 0);
      Watch.EvSpawn (0, 0) "serve" ].
Proof.
  rewrite (invocation_kills_then_spawns Samples.serve false
             (Cycle.invoke Samples.serve true Watch.init) eq_refl).
  reflexivity.
Defined.

End Instances.
